(** * Graphical LP solver: the constraint model, the corner-point search
      and the calculator

    A shallow embedding of [models/lp_problem.py] and
    [modules/calc_module.py], in two readings of the arithmetic.

    The exact reading embeds Python floats as rationals ([Q]) and
    numpy's [det] and [solve] as the determinant and the solution of the
    system.  It carries the properties that rest on the structure of the
    code (loops, lists, comparisons of given coefficients), which hold
    whatever the rounding.

    The machine reading ([Module Machine]) embeds Python floats as IEEE
    binary64 numbers ([PrimFloat.float]), with their rounded sums,
    products and quotients and their comparisons.  What the program asks
    of numpy ([np.linalg.det], [np.linalg.solve]) and of the C library
    (the power operator) is taken as a parameter: the statements hold for
    whatever these return.  It carries the properties that depend on the
    computed values.

    Exceptions are explicit: a call returns [Ok v] or [Err e]. *)

From Stdlib Require Import Floats.
From Stdlib Require Import List ZArith QArith Qabs Bool String Lia.
From Stdlib Require Import Sorted Permutation.
From Stdlib Require Lqa.
Import ListNotations.

Set Warnings "-inexact-float".

Open Scope Q_scope.

(** ** Exceptions *)

Inductive exn : Type :=
| IndexError
| ValueError
| LinAlgError
| ZeroDivisionError
| OverflowError.

Inductive res (A : Type) : Type :=
| Ok (a : A)
| Err (e : exn).

Arguments Ok {A} a.
Arguments Err {A} e.

Definition bind {A B : Type} (m : res A) (k : A -> res B) : res B :=
  match m with
  | Ok a => k a
  | Err e => Err e
  end.

Notation "x <- m ;; k" := (bind m (fun x => k))
  (at level 61, m at next level, right associativity).

(** [for x in l: s = body x s], stopping at the first exception. *)
Fixpoint for_each {A S : Type} (l : list A) (body : A -> S -> res S) (s : S)
  : res S :=
  match l with
  | [] => Ok s
  | x :: l' => s' <- body x s ;; for_each l' body s'
  end.

(** [range(lo, hi)] *)
Definition range (lo hi : nat) : list nat := seq lo (hi - lo).

(** [l[i]] for an index produced by [range] (never negative). *)
Definition getitem {A : Type} (l : list A) (i : nat) : res A :=
  match nth_error l i with
  | Some x => Ok x
  | None => Err IndexError
  end.

(** [l.pop(index)]: a negative index counts from the end; an index out of
    range raises.  Returns the list left after the removal. *)
Fixpoint remove_at {A : Type} (i : nat) (l : list A) : list A :=
  match l, i with
  | [], _ => []
  | _ :: l', O => l'
  | x :: l', S i' => x :: remove_at i' l'
  end.

Definition pop {A : Type} (l : list A) (index : Z) : res (list A) :=
  let n := Z.of_nat (List.length l) in
  let k := if (index <? 0)%Z then (index + n)%Z else index in
  if ((0 <=? k)%Z && (k <? n)%Z)%bool
  then Ok (remove_at (Z.to_nat k) l)
  else Err IndexError.

(** Strict comparison of floats, [x < y]. *)
Definition Qlt_bool (x y : Q) : bool := negb (Qle_bool y x).

(** The literal [1e-10]. *)
Definition tol : Q := 1 # 10000000000.

(** ** ConstraintType and Constraint *)

Inductive ConstraintType : Type :=
| LESS_EQUAL
| EQUAL
| GREATER_EQUAL.

(** The [.value] of an enumeration member: its glyph. *)
Definition value (t : ConstraintType) : string :=
  match t with
  | LESS_EQUAL => "≤"
  | EQUAL => "="
  | GREATER_EQUAL => "≥"
  end.

Record Constraint : Type := mkConstraint {
  a1 : Q;
  a2 : Q;
  b : Q;
  constraint_type : ConstraintType
}.

Definition is_satisfied_eps (c : Constraint) (x1 x2 eps : Q) : bool :=
  let left_side := a1 c * x1 + a2 c * x2 in
  match constraint_type c with
  | LESS_EQUAL => Qle_bool left_side (b c + eps)
  | EQUAL => Qle_bool (Qabs (left_side - b c)) eps
  | GREATER_EQUAL => Qle_bool (b c - eps) left_side
  end.

(** [is_satisfied] with the default [eps = 1e-10]. *)
Definition is_satisfied (c : Constraint) (x1 x2 : Q) : bool :=
  is_satisfied_eps c x1 x2 tol.

(** ** LPProblem *)

Definition CornerPoint : Type := (Q * Q * list nat)%type.

Record LPProblem : Type := mkLPProblem {
  c1 : Q;
  c2 : Q;
  constraints : list Constraint;
  corner_points : list CornerPoint
}.

(** [LPProblem(c1, c2)] *)
Definition new_problem (c1 c2 : Q) : LPProblem :=
  mkLPProblem c1 c2 [] [].

Definition set_constraints (p : LPProblem) (cs : list Constraint) : LPProblem :=
  mkLPProblem (c1 p) (c2 p) cs (corner_points p).

Definition set_corner_points (p : LPProblem) (cps : list CornerPoint)
  : LPProblem :=
  mkLPProblem (c1 p) (c2 p) (constraints p) cps.

Definition add_constraint (p : LPProblem) (a1 a2 b : Q) (t : ConstraintType)
  : LPProblem :=
  set_constraints p (constraints p ++ [mkConstraint a1 a2 b t]).

Definition remove_constraint (p : LPProblem) (index : Z) : res LPProblem :=
  if ((0 <=? index)%Z && (index <? Z.of_nat (List.length (constraints p)))%Z)%bool
  then cs <- pop (constraints p) index ;; Ok (set_constraints p cs)
  else Ok p.

Definition objective_value (p : LPProblem) (x1 x2 : Q) : Q :=
  c1 p * x1 + c2 p * x2.

Definition gradient (p : LPProblem) : Q * Q := (c1 p, c2 p).

Definition is_feasible (p : LPProblem) (x1 x2 : Q) : bool :=
  forallb (fun constraint => is_satisfied constraint x1 x2) (constraints p).

(** *** numpy's 2x2 linear algebra

    [np.linalg.det] and [np.linalg.solve] belong to numpy, not to this
    program; on the 2x2 systems built by [find_corner_points] they are
    the determinant and the solution of the system, and [solve] raises
    [LinAlgError] on a singular matrix. *)

Definition det (a11 a12 a21 a22 : Q) : Q := a11 * a22 - a12 * a21.

Definition solve (a11 a12 a21 a22 b1 b2 : Q) : res (Q * Q) :=
  let d := det a11 a12 a21 a22 in
  if Qeq_bool d 0 then Err LinAlgError
  else Ok ((b1 * a22 - a12 * b2) / d, (a11 * b2 - a21 * b1) / d).

(** *** find_corner_points *)

(** The body of the inner loop, for one pair [(i, j)]; [corner_points] is
    the local list the loops append to. *)
Definition pair_body (p : LPProblem) (i j : nat)
  (corner_points : list CornerPoint) : res (list CornerPoint) :=
  constr1 <- getitem (constraints p) i ;;
  constr2 <- getitem (constraints p) j ;;
  if Qlt_bool (Qabs (det (a1 constr1) (a2 constr1) (a1 constr2) (a2 constr2)))
       tol
  then Ok corner_points
  else
    match solve (a1 constr1) (a2 constr1) (a1 constr2) (a2 constr2)
            (b constr1) (b constr2) with
    | Ok (x1, x2) =>
        if is_feasible p x1 x2
        then Ok (corner_points ++ [(x1, x2, [i; j])])
        else Ok corner_points
    | Err LinAlgError => Ok corner_points
    | Err e => Err e
    end.

(** Returns the list and the problem with its cache overwritten. *)
Definition find_corner_points (p : LPProblem)
  : res (list CornerPoint * LPProblem) :=
  let n := List.length (constraints p) in
  corner_points <-
    for_each (range 0 n)
      (fun i acc => for_each (range (i + 1) n) (pair_body p i) acc) [] ;;
  Ok (corner_points, set_corner_points p corner_points).

(** ** Calculator *)

(** The builtin [max(iterable, key=...)]: the running best is replaced
    only by an item whose key is strictly greater; an empty iterable
    raises [ValueError]. *)
Fixpoint max_from {A : Type} (key : A -> Q) (best : A) (l : list A) : A :=
  match l with
  | [] => best
  | x :: l' => max_from key (if Qlt_bool (key best) (key x) then x else best) l'
  end.

Definition py_max {A : Type} (key : A -> Q) (l : list A) : res A :=
  match l with
  | [] => Err ValueError
  | x :: l' => Ok (max_from key x l')
  end.

Definition Solution : Type := (Q * Q * Q * list nat)%type.

(** The calculator holds a reference to the problem, so the cache written
    by [find_corner_points] is visible afterwards: the problem is
    returned next to the result. *)
Definition find_optimal_solution (lp_problem : LPProblem)
  : res (option Solution * LPProblem) :=
  r <- find_corner_points lp_problem ;;
  let '(corner_points, lp_problem) := r in
  match corner_points with
  | [] => Ok (None, lp_problem)
  | _ :: _ =>
      best_point <-
        py_max (fun pt : CornerPoint =>
                  objective_value lp_problem (fst (fst pt)) (snd (fst pt)))
          corner_points ;;
      let '(x1, x2, indices) := best_point in
      let value := objective_value lp_problem x1 x2 in
      Ok (Some (x1, x2, value, indices), lp_problem)
  end.

Record Flags : Type := mkFlags {
  has_x1_lower_bound : bool;
  has_x1_upper_bound : bool;
  has_x2_lower_bound : bool;
  has_x2_upper_bound : bool
}.

Definition set_x1_lower (f : Flags) : Flags :=
  mkFlags true (has_x1_upper_bound f) (has_x2_lower_bound f)
    (has_x2_upper_bound f).
Definition set_x1_upper (f : Flags) : Flags :=
  mkFlags (has_x1_lower_bound f) true (has_x2_lower_bound f)
    (has_x2_upper_bound f).
Definition set_x2_lower (f : Flags) : Flags :=
  mkFlags (has_x1_lower_bound f) (has_x1_upper_bound f) true
    (has_x2_upper_bound f).
Definition set_x2_upper (f : Flags) : Flags :=
  mkFlags (has_x1_lower_bound f) (has_x1_upper_bound f)
    (has_x2_lower_bound f) true.

(** The first [if] of the loop body of [is_bounded]. *)
Definition scan_x1 (constraint : Constraint) (f : Flags) : Flags :=
  if Qlt_bool (Qabs (a2 constraint)) tol then
    if Qlt_bool 0 (a1 constraint) then
      match constraint_type constraint with
      | LESS_EQUAL => set_x1_upper f
      | GREATER_EQUAL => set_x1_lower f
      | EQUAL => f
      end
    else if Qlt_bool (a1 constraint) 0 then
      match constraint_type constraint with
      | LESS_EQUAL => set_x1_lower f
      | GREATER_EQUAL => set_x1_upper f
      | EQUAL => f
      end
    else f
  else f.

(** The second [if] of the loop body. *)
Definition scan_x2 (constraint : Constraint) (f : Flags) : Flags :=
  if Qlt_bool (Qabs (a1 constraint)) tol then
    if Qlt_bool 0 (a2 constraint) then
      match constraint_type constraint with
      | LESS_EQUAL => set_x2_upper f
      | GREATER_EQUAL => set_x2_lower f
      | EQUAL => f
      end
    else if Qlt_bool (a2 constraint) 0 then
      match constraint_type constraint with
      | LESS_EQUAL => set_x2_lower f
      | GREATER_EQUAL => set_x2_upper f
      | EQUAL => f
      end
    else f
  else f.

Definition scan (f : Flags) (constraint : Constraint) : Flags :=
  scan_x2 constraint (scan_x1 constraint f).

Definition scan_all (cs : list Constraint) : Flags :=
  fold_left scan cs (mkFlags false false false false).

Definition is_bounded (lp_problem : LPProblem) : bool :=
  let f := scan_all (constraints lp_problem) in
  has_x1_lower_bound f && has_x1_upper_bound f &&
  has_x2_lower_bound f && has_x2_upper_bound f.

(** ** Serialisation

    [to_dict] builds, and [from_dict] reads, dictionaries with a fixed
    set of keys; each is a record with one field per key.  The ["type"]
    entry is a string. *)

Record ConstraintDict : Type := mkConstraintDict {
  d_a1 : Q;
  d_a2 : Q;
  d_b : Q;
  d_type : string
}.

Record ProblemDict : Type := mkProblemDict {
  d_c1 : Q;
  d_c2 : Q;
  d_constraints : list ConstraintDict
}.

Definition to_dict (p : LPProblem) : ProblemDict :=
  mkProblemDict (c1 p) (c2 p)
    (map (fun constraint =>
            mkConstraintDict (a1 constraint) (a2 constraint) (b constraint)
              (value (constraint_type constraint)))
       (constraints p)).

(** The [if]/[elif]/[else] of [from_dict] on the ["type"] entry. *)
Definition type_of_glyph (s : string) : ConstraintType :=
  if String.eqb s "≤" then LESS_EQUAL
  else if String.eqb s "=" then EQUAL
  else GREATER_EQUAL.

Definition from_dict (data : ProblemDict) : LPProblem :=
  fold_left
    (fun problem constr_data =>
       add_constraint problem (d_a1 constr_data) (d_a2 constr_data)
         (d_b constr_data) (type_of_glyph (d_type constr_data)))
    (d_constraints data)
    (new_problem (d_c1 data) (d_c2 data)).

(** ** Further operations of the model and the calculator *)

(** Float division over the rationals: a zero divisor raises. *)
Definition py_divQ (x y : Q) : res Q :=
  if Qeq_bool y 0 then Err ZeroDivisionError else Ok (x / y).

(** A list comprehension [[f x for x in l]] whose element expression can
    raise. *)
Fixpoint comprehension {A B : Type} (f : A -> res B) (l : list A)
  : res (list B) :=
  match l with
  | [] => Ok []
  | x :: l' => y <- f x ;; ys <- comprehension f l' ;; Ok (y :: ys)
  end.

(** [Constraint.get_line_points]: the pair of lists
    [(x1_points, x2_points)]. *)
Definition get_line_points (c : Constraint) (x_range : Q * Q)
  : res (list Q * list Q) :=
  let '(x1_min, x1_max) := x_range in
  let x1_points := [x1_min; x1_max] in
  if Qlt_bool (Qabs (a2 c)) tol then
    if Qlt_bool (Qabs (a1 c)) tol then Ok ([], [])
    else
      x1_val <- py_divQ (b c) (a1 c) ;;
      if Qle_bool x1_min x1_val && Qle_bool x1_val x1_max
      then Ok ([x1_val; x1_val], [x1_min; x1_max])
      else Ok ([], [])
  else
    x2_points <-
      comprehension (fun x1 => py_divQ (b c - a1 c * x1) (a2 c)) x1_points ;;
    Ok (x1_points, x2_points).

(** [np.linspace(start, stop, num)]: [num] evenly spaced samples, the
    last one set to [stop]. *)
Definition linspace (start stop : Q) (num : nat) : list Q :=
  let step := (stop - start) / inject_Z (Z.of_nat (num - 1)) in
  let y := map (fun k => inject_Z (Z.of_nat k) * step + start) (seq 0 num) in
  if (1 <? num)%nat then removelast y ++ [stop] else y.

(** The inner and the outer loop of [suggest_initial_point]; each returns
    at the first feasible sample. *)
Fixpoint probe_row (p : LPProblem) (x1 : Q) (x2s : list Q) : option (Q * Q) :=
  match x2s with
  | [] => None
  | x2 :: x2s' =>
      if is_feasible p x1 x2 then Some (x1, x2) else probe_row p x1 x2s'
  end.

Fixpoint probe_grid (p : LPProblem) (x1s x2s : list Q) : option (Q * Q) :=
  match x1s with
  | [] => None
  | x1 :: x1s' =>
      match probe_row p x1 x2s with
      | Some pt => Some pt
      | None => probe_grid p x1s' x2s
      end
  end.

Definition suggest_initial_point (lp_problem : LPProblem)
  : res (option (Q * Q) * LPProblem) :=
  r <- find_corner_points lp_problem ;;
  let '(corner_points, lp_problem) := r in
  match corner_points with
  | pt :: _ => Ok (Some (fst (fst pt), snd (fst pt)), lp_problem)
  | [] =>
      Ok (probe_grid lp_problem (linspace 0 10 20) (linspace 0 10 20),
          lp_problem)
  end.

(** ** Notions used to state the properties *)

(** Lexicographic order on index pairs. *)
Definition lex_lt (p q : nat * nat) : Prop :=
  (fst p < fst q)%nat \/ (fst p = fst q /\ snd p < snd q)%nat.

(** The pairs visited by the two loops over [n] constraints. *)
Definition index_pairs (n : nat) : list (nat * nat) :=
  flat_map (fun i => map (fun j => (i, j)) (range (i + 1) n)) (range 0 n).

(** Determinant and intersection point of the boundary lines of two
    constraints. *)
Definition det_of (ci cj : Constraint) : Q :=
  det (a1 ci) (a2 ci) (a1 cj) (a2 cj).

Definition intersection (ci cj : Constraint) : Q * Q :=
  ((b ci * a2 cj - a2 ci * b cj) / det_of ci cj,
   (a1 ci * b cj - a1 cj * b ci) / det_of ci cj).

(** [(x1, x2)] lies on the boundary line of [c]. *)
Definition on_line (c : Constraint) (x1 x2 : Q) : Prop :=
  a1 c * x1 + a2 c * x2 == b c.

(** The system of the two boundary lines has [(x1, x2)] as its one
    solution. *)
Definition unique_solution (ci cj : Constraint) (x1 x2 : Q) : Prop :=
  on_line ci x1 x2 /\ on_line cj x1 x2 /\
  forall y1 y2, on_line ci y1 y2 -> on_line cj y1 y2 -> y1 == x1 /\ y2 == x2.

(** What the pair [(i, j)] adds to the result. *)
Definition contribution (p : LPProblem) (ij : nat * nat) : list CornerPoint :=
  let '(i, j) := ij in
  match nth_error (constraints p) i, nth_error (constraints p) j with
  | Some ci, Some cj =>
      let '(x1, x2) := intersection ci cj in
      if Qle_bool tol (Qabs (det_of ci cj)) && is_feasible p x1 x2
      then [(x1, x2, [i; j])]
      else []
  | _, _ => []
  end.

(** [m] is the first item of [l] whose key is the greatest: the items
    before it have a smaller key, those after it none greater. *)
Definition first_max {A : Type} (key : A -> Q) (l : list A) (m : A) : Prop :=
  exists before after,
    l = before ++ m :: after /\
    Forall (fun x => key x < key m) before /\
    Forall (fun x => key x <= key m) after.

(** The objective value of a corner point. *)
Definition point_value (p : LPProblem) (pt : CornerPoint) : Q :=
  objective_value p (fst (fst pt)) (snd (fst pt)).

Inductive Bound : Type := Lower | Upper.

(** The classification table of a coefficient and a constraint type. *)
Definition classify (coef : Q) (t : ConstraintType) : option Bound :=
  match t with
  | LESS_EQUAL =>
      if Qlt_bool 0 coef then Some Upper
      else if Qlt_bool coef 0 then Some Lower else None
  | GREATER_EQUAL =>
      if Qlt_bool 0 coef then Some Lower
      else if Qlt_bool coef 0 then Some Upper else None
  | EQUAL => None
  end.

(** Constraint [c] is scanned for the [x1] axis (its [x2] coefficient is
    below the tolerance) and classified as the bound [bd]; likewise for
    [x2]. *)
Definition bounds_x1 (bd : Bound) (c : Constraint) : Prop :=
  Qabs (a2 c) < tol /\ classify (a1 c) (constraint_type c) = Some bd.

Definition bounds_x2 (bd : Bound) (c : Constraint) : Prop :=
  Qabs (a1 c) < tol /\ classify (a2 c) (constraint_type c) = Some bd.

(** The same two tests as booleans. *)
Definition bound_is (bd : Bound) (o : option Bound) : bool :=
  match o, bd with
  | Some Lower, Lower => true
  | Some Upper, Upper => true
  | _, _ => false
  end.

Definition bounds_x1b (bd : Bound) (c : Constraint) : bool :=
  Qlt_bool (Qabs (a2 c)) tol && bound_is bd (classify (a1 c) (constraint_type c)).

Definition bounds_x2b (bd : Bound) (c : Constraint) : bool :=
  Qlt_bool (Qabs (a1 c)) tol && bound_is bd (classify (a2 c) (constraint_type c)).

Definition is_equality (c : Constraint) : bool :=
  match constraint_type c with
  | EQUAL => true
  | _ => false
  end.

(** Neither coefficient is below the tolerance: the line is not
    axis-aligned. *)
Definition non_axis_aligned (c : Constraint) : Prop :=
  tol <= Qabs (a1 c) /\ tol <= Qabs (a2 c).

(** The inclusion rule of [find_corner_points] with "the system has a
    unique solution" read as a property of the linear system itself:
    every pair whose system has one solution, feasible for the whole
    problem, contributes that point. *)
Definition includes_every_unique_feasible_intersection (p : LPProblem) : Prop :=
  forall i j ci cj x1 x2 cps p',
    (i < j)%nat ->
    nth_error (constraints p) i = Some ci ->
    nth_error (constraints p) j = Some cj ->
    unique_solution ci cj x1 x2 ->
    is_feasible p x1 x2 = true ->
    find_corner_points p = Ok (cps, p') ->
    exists y1 y2, y1 == x1 /\ y2 == x2 /\ In (y1, y2, [i; j]) cps.

(** * The machine reading *)

Module Machine.

Local Open Scope float_scope.

(** The literal [1e-10]: the binary64 number nearest to it. *)
Definition tol : float := 1e-10.

Record Constraint : Type := mkConstraint {
  a1 : float;
  a2 : float;
  b : float;
  constraint_type : ConstraintType
}.

(** [left_side >= y] is [y <= left_side]; both are false on a NaN. *)
Definition is_satisfied_eps (c : Constraint) (x1 x2 eps : float) : bool :=
  let left_side := a1 c * x1 + a2 c * x2 in
  match constraint_type c with
  | LESS_EQUAL => left_side <=? b c + eps
  | EQUAL => abs (left_side - b c) <=? eps
  | GREATER_EQUAL => b c - eps <=? left_side
  end.

Definition is_satisfied (c : Constraint) (x1 x2 : float) : bool :=
  is_satisfied_eps c x1 x2 tol.

Definition CornerPoint : Type := (float * float * list nat)%type.

Record LPProblem : Type := mkLPProblem {
  c1 : float;
  c2 : float;
  constraints : list Constraint;
  corner_points : list CornerPoint
}.

Definition set_corner_points (p : LPProblem) (cps : list CornerPoint)
  : LPProblem :=
  mkLPProblem (c1 p) (c2 p) (constraints p) cps.

Definition gradient (p : LPProblem) : float * float := (c1 p, c2 p).

Definition is_feasible (p : LPProblem) (x1 x2 : float) : bool :=
  forallb (fun constraint => is_satisfied constraint x1 x2) (constraints p).

(** Float division: a zero divisor, of either sign, raises. *)
Definition py_div (x y : float) : res float :=
  if y =? 0 then Err ZeroDivisionError else Ok (x / y).

Section Numpy.

(** [np.linalg.det] of the matrix [[a11 a12] [a21 a22]], and
    [np.linalg.solve] of the system with that matrix and the right-hand
    side [(b1, b2)]; [None] stands for the [LinAlgError] it raises on a
    matrix it finds singular, the one exception it raises on such a
    system. *)
Variable det : float -> float -> float -> float -> float.
Variable solve :
  float -> float -> float -> float -> float -> float -> option (float * float).

(** The body of the inner loop of [find_corner_points]. *)
Definition pair_body (p : LPProblem) (i j : nat)
  (corner_points : list CornerPoint) : res (list CornerPoint) :=
  constr1 <- getitem (constraints p) i ;;
  constr2 <- getitem (constraints p) j ;;
  if abs (det (a1 constr1) (a2 constr1) (a1 constr2) (a2 constr2)) <? tol
  then Ok corner_points
  else
    match solve (a1 constr1) (a2 constr1) (a1 constr2) (a2 constr2)
            (b constr1) (b constr2) with
    | Some (x1, x2) =>
        if is_feasible p x1 x2
        then Ok (corner_points ++ [(x1, x2, [i; j])])
        else Ok corner_points
    | None => Ok corner_points
    end.

Definition find_corner_points (p : LPProblem)
  : res (list CornerPoint * LPProblem) :=
  let n := List.length (constraints p) in
  corner_points <-
    for_each (range 0 n)
      (fun i acc => for_each (range (i + 1) n) (pair_body p i) acc) [] ;;
  Ok (corner_points, set_corner_points p corner_points).

(** The pair [(i, j)] passes the determinant guard and [solve] returns
    [(x1, x2)] for it, a point that [is_feasible] accepts. *)
Definition kept (p : LPProblem) (i j : nat) (x1 x2 : float) : Prop :=
  exists ci cj,
    nth_error (constraints p) i = Some ci /\
    nth_error (constraints p) j = Some cj /\
    (abs (det (a1 ci) (a2 ci) (a1 cj) (a2 cj)) <? tol) = false /\
    solve (a1 ci) (a2 ci) (a1 cj) (a2 cj) (b ci) (b cj) = Some (x1, x2) /\
    is_feasible p x1 x2 = true.

(** What the pair [(i, j)] adds to the result. *)
Definition contribution (p : LPProblem) (ij : nat * nat) : list CornerPoint :=
  let '(i, j) := ij in
  match nth_error (constraints p) i, nth_error (constraints p) j with
  | Some ci, Some cj =>
      if abs (det (a1 ci) (a2 ci) (a1 cj) (a2 cj)) <? tol then []
      else
        match solve (a1 ci) (a2 ci) (a1 cj) (a2 cj) (b ci) (b cj) with
        | Some (x1, x2) => if is_feasible p x1 x2 then [(x1, x2, [i; j])] else []
        | None => []
        end
  | _, _ => []
  end.

End Numpy.

Section Power.

(** The operator [**] on floats, which the interpreter hands to the C
    library: it returns a float or raises ([OverflowError] when the
    result is out of range). *)
Variable pow : float -> float -> res float.

Definition move_in_gradient_direction (p : LPProblem) (x1 x2 step : float)
  (anti_gradient : bool) : res (float * float) :=
  let '(grad_x1, grad_x2) := gradient p in
  let grad_x1 := if anti_gradient then - grad_x1 else grad_x1 in
  let grad_x2 := if anti_gradient then - grad_x2 else grad_x2 in
  square_x1 <- pow grad_x1 2 ;;
  square_x2 <- pow grad_x2 2 ;;
  norm <- pow (square_x1 + square_x2) 0.5 ;;
  if norm <? tol then Ok (x1, x2)
  else
    grad_x1 <- py_div grad_x1 norm ;;
    grad_x2 <- py_div grad_x2 norm ;;
    Ok (x1 + step * grad_x1, x2 + step * grad_x2).

End Power.

Definition get_line_points (c : Constraint) (x_range : float * float)
  : res (list float * list float) :=
  let '(x1_min, x1_max) := x_range in
  let x1_points := [x1_min; x1_max] in
  if abs (a2 c) <? tol then
    if abs (a1 c) <? tol then Ok ([], [])
    else
      x1_val <- py_div (b c) (a1 c) ;;
      if (x1_min <=? x1_val) && (x1_val <=? x1_max)
      then Ok ([x1_val; x1_val], [x1_min; x1_max])
      else Ok ([], [])
  else
    x2_points <-
      comprehension (fun x1 => py_div (b c - a1 c * x1) (a2 c)) x1_points ;;
    Ok (x1_points, x2_points).

(** [7 x1 + 100000 x2 <= 0] and [35 x1 + 500000 x2 <= 0]: the second row
    is five times the first, the two boundary lines coincide. *)
Definition coincident_problem : LPProblem :=
  mkLPProblem 1 1
    [ mkConstraint 7 100000 0 LESS_EQUAL;
      mkConstraint 35 500000 0 LESS_EQUAL ]
    [].

(** The objective [1e200 x1]. *)
Definition steep_problem : LPProblem := mkLPProblem 1e200 0 [] [].

(** [x1 <= 4], [x2 <= 4], [x1 >= 0], [x2 >= 0], maximise [2 x1 + 3 x2]. *)
Definition box_problem : LPProblem :=
  mkLPProblem 2 3
    [ mkConstraint 1 0 4 LESS_EQUAL;
      mkConstraint 0 1 4 LESS_EQUAL;
      mkConstraint 1 0 0 GREATER_EQUAL;
      mkConstraint 0 1 0 GREATER_EQUAL ]
    [].

(** Stand-ins for numpy, used to run the definitions: the determinant
    and Cramer's rule in rounded arithmetic. *)
Definition product_det (a11 a12 a21 a22 : float) : float :=
  a11 * a22 - a12 * a21.

Definition cramer_solve (a11 a12 a21 a22 b1 b2 : float)
  : option (float * float) :=
  let d := product_det a11 a12 a21 a22 in
  if d =? 0 then None
  else Some ((b1 * a22 - a12 * b2) / d, (a11 * b2 - a21 * b1) / d).

(** A power operator for the two exponents the program uses, the
    rounded square and the rounded square root, with the overflow rule
    of the interpreter: a result that is infinite for a finite base
    raises [OverflowError]. *)
Definition checked_pow (x y : float) : res float :=
  let r := if y =? 2 then x * x else sqrt x in
  if (abs r =? infinity) && negb (abs x =? infinity) then Err OverflowError
  else Ok r.

End Machine.

(** ** Sample problems *)

(** [x1 <= 4], [x2 <= 4], [x1 >= 0], [x2 >= 0], maximise [2 x1 + 3 x2]. *)
Definition box_problem : LPProblem :=
  mkLPProblem 2 3
    [ mkConstraint 1 0 4 LESS_EQUAL;
      mkConstraint 0 1 4 LESS_EQUAL;
      mkConstraint 1 0 0 GREATER_EQUAL;
      mkConstraint 0 1 0 GREATER_EQUAL ]
    [].

(** Its corner points, in the order of the pairs [(0,1)], [(0,3)],
    [(1,2)], [(2,3)] that produce them. *)
Definition box_corner_points : list CornerPoint :=
  [ (4, 4, [0%nat; 1%nat]); (4, 0, [0%nat; 3%nat]);
    (0, 4, [1%nat; 2%nat]); (0, 0, [2%nat; 3%nat]) ].

(** [1e-6 x1 <= 1], [1e-6 x2 <= 1]: the boundary lines meet at
    [(1e6, 1e6)], the determinant is [1e-12]. *)
Definition small_coefficients_problem : LPProblem :=
  mkLPProblem 1 1
    [ mkConstraint (1 # 1000000) 0 1 LESS_EQUAL;
      mkConstraint 0 (1 # 1000000) 1 LESS_EQUAL ]
    [].

(** The triangle [x1 + x2 <= 4], [x1 - x2 >= 0], [x2 >= 0]. *)
Definition triangle_problem : LPProblem :=
  mkLPProblem 1 1
    [ mkConstraint 1 1 4 LESS_EQUAL;
      mkConstraint 1 (-1) 0 GREATER_EQUAL;
      mkConstraint 0 1 0 GREATER_EQUAL ]
    [].

(** The segment [x1 = 5], [0 <= x2 <= 3]. *)
Definition segment_problem : LPProblem :=
  mkLPProblem 1 1
    [ mkConstraint 1 0 5 EQUAL;
      mkConstraint 0 1 0 GREATER_EQUAL;
      mkConstraint 0 1 3 LESS_EQUAL ]
    [].

(** * Properties *)

(** ** Comparisons *)

Lemma Qlt_bool_iff (x y : Q) : Qlt_bool x y = true <-> x < y.
Proof.
  unfold Qlt_bool. rewrite negb_true_iff.
  split; intro H.
  - apply Qnot_le_lt. intro Hle. apply Qle_bool_iff in Hle. congruence.
  - destruct (Qle_bool y x) eqn:E; [|reflexivity].
    apply Qle_bool_iff in E. Lqa.lra.
Qed.

Lemma Qlt_bool_false_iff (x y : Q) : Qlt_bool x y = false <-> y <= x.
Proof.
  unfold Qlt_bool. rewrite negb_false_iff. apply Qle_bool_iff.
Qed.

Lemma tol_pos : 0 < tol.
Proof. reflexivity. Qed.

Lemma guard_nonzero (d : Q) : tol <= Qabs d -> ~ d == 0.
Proof.
  intros H E. rewrite E in H. revert H. apply Qlt_not_le. reflexivity.
Qed.

(** ** Loops *)

Section Loops.
Context {A B : Type}.

(** A loop whose body only appends to the accumulator collects the
    appended pieces in order. *)
Lemma for_each_appends (f : A -> list B) (body : A -> list B -> res (list B))
  (l : list A) :
  (forall x acc, In x l -> body x acc = Ok (acc ++ f x)) ->
  forall acc, for_each l body acc = Ok (acc ++ flat_map f l).
Proof.
  induction l as [|x l IH]; intros Hbody acc; simpl.
  - now rewrite app_nil_r.
  - rewrite Hbody by now left. simpl.
    rewrite IH by (intros; apply Hbody; now right).
    now rewrite app_assoc.
Qed.

Lemma flat_map_flat_map {C : Type} (f : B -> list C) (g : A -> list B)
  (l : list A) :
  flat_map f (flat_map g l) = flat_map (fun x => flat_map f (g x)) l.
Proof.
  induction l as [|x l IH]; simpl; [reflexivity|].
  now rewrite flat_map_app, IH.
Qed.

Lemma flat_map_map {C : Type} (f : B -> list C) (g : A -> B) (l : list A) :
  flat_map f (map g l) = flat_map (fun x => f (g x)) l.
Proof.
  induction l as [|x l IH]; simpl; [reflexivity|]. now rewrite IH.
Qed.
End Loops.

Lemma in_range (lo hi k : nat) : In k (range lo hi) <-> (lo <= k < hi)%nat.
Proof. unfold range. rewrite in_seq. lia. Qed.

(** ** The enumeration of index pairs *)

Lemma in_index_pairs (n i j : nat) :
  In (i, j) (index_pairs n) <-> (i < j < n)%nat.
Proof.
  unfold index_pairs. rewrite in_flat_map. split.
  - intros (k & Hk & Hin). apply in_map_iff in Hin.
    destruct Hin as (m & E & Hm). inversion E; subst.
    apply in_range in Hk. apply in_range in Hm. lia.
  - intros H. exists i. split.
    + apply in_range. lia.
    + apply in_map_iff. exists j. split; [reflexivity|]. apply in_range. lia.
Qed.

Lemma seq_sorted (len start : nat) : StronglySorted lt (seq start len).
Proof.
  revert start. induction len as [|len IH]; intro start; simpl.
  - constructor.
  - constructor; [apply IH|].
    apply Forall_forall. intros k Hk. apply in_seq in Hk. lia.
Qed.

Lemma sorted_app {T : Type} (R : T -> T -> Prop) (l1 l2 : list T) :
  StronglySorted R l1 -> StronglySorted R l2 ->
  (forall x y, In x l1 -> In y l2 -> R x y) ->
  StronglySorted R (l1 ++ l2).
Proof.
  induction l1 as [|x l1 IH]; intros S1 S2 H12; simpl; [assumption|].
  inversion S1 as [|? ? S1' F1]; subst.
  constructor.
  - apply IH; auto. intros; apply H12; [now right|assumption].
  - apply Forall_app. split; [assumption|].
    apply Forall_forall. intros y Hy. apply H12; [now left|assumption].
Qed.

Lemma row_sorted (i : nat) (js : list nat) :
  StronglySorted lt js -> StronglySorted lex_lt (map (fun j => (i, j)) js).
Proof.
  induction 1 as [|j js S IH F]; simpl; constructor; [assumption|].
  apply Forall_forall. intros q Hq. apply in_map_iff in Hq.
  destruct Hq as (k & <- & Hk). right. simpl. split; [reflexivity|].
  rewrite Forall_forall in F. now apply F.
Qed.

Lemma rows_sorted (n : nat) (rows : list nat) :
  StronglySorted lt rows ->
  StronglySorted lex_lt
    (flat_map (fun i => map (fun j => (i, j)) (range (i + 1) n)) rows).
Proof.
  induction 1 as [|i rows S IH F]; simpl; [constructor|].
  apply sorted_app; [apply row_sorted, seq_sorted|assumption|].
  intros x y Hx Hy. apply in_map_iff in Hx. destruct Hx as (j & <- & _).
  apply in_flat_map in Hy. destruct Hy as (i' & Hi' & Hy).
  apply in_map_iff in Hy. destruct Hy as (j' & <- & _).
  left. simpl. rewrite Forall_forall in F. now apply F.
Qed.

Lemma index_pairs_sorted (n : nat) : StronglySorted lex_lt (index_pairs n).
Proof. apply rows_sorted, seq_sorted. Qed.

(** ** The 2x2 system of a pair of constraints *)

(** Past the determinant guard, [solve] returns the intersection. *)
Lemma solve_past_guard (ci cj : Constraint) :
  tol <= Qabs (det_of ci cj) ->
  solve (a1 ci) (a2 ci) (a1 cj) (a2 cj) (b ci) (b cj) = Ok (intersection ci cj).
Proof.
  intro H. apply guard_nonzero in H. unfold solve.
  destruct (Qeq_bool _ _) eqn:E.
  - apply Qeq_bool_eq in E. now elim H.
  - reflexivity.
Qed.

(** ** One pair of the double loop *)

Lemma pair_body_contribution (p : LPProblem) (i j : nat)
  (acc : list CornerPoint) :
  (i < List.length (constraints p))%nat ->
  (j < List.length (constraints p))%nat ->
  pair_body p i j acc = Ok (acc ++ contribution p (i, j)).
Proof.
  intros Hi Hj. unfold pair_body, contribution, getitem.
  destruct (nth_error (constraints p) i) as [ci|] eqn:Ei;
    [|apply nth_error_None in Ei; lia].
  destruct (nth_error (constraints p) j) as [cj|] eqn:Ej;
    [|apply nth_error_None in Ej; lia].
  cbn [bind]. fold (det_of ci cj).
  destruct (Qlt_bool (Qabs (det_of ci cj)) tol) eqn:G.
  - apply Qlt_bool_iff in G.
    destruct (intersection ci cj) as [x1 x2].
    destruct (Qle_bool tol (Qabs (det_of ci cj))) eqn:G'.
    + apply Qle_bool_iff in G'. exfalso. Lqa.lra.
    + cbn [andb]. now rewrite app_nil_r.
  - apply Qlt_bool_false_iff in G.
    rewrite (solve_past_guard ci cj G).
    destruct (intersection ci cj) as [x1 x2].
    apply Qle_bool_iff in G. rewrite G. cbn [andb].
    destruct (is_feasible p x1 x2); [reflexivity|now rewrite app_nil_r].
Qed.

Lemma find_corner_points_flat_map (p : LPProblem) :
  let result :=
    flat_map (contribution p) (index_pairs (List.length (constraints p))) in
  find_corner_points p = Ok (result, set_corner_points p result).
Proof.
  intro result. unfold find_corner_points.
  rewrite (for_each_appends
             (fun i => flat_map (fun j => contribution p (i, j))
                         (range (i + 1) (List.length (constraints p))))).
  - simpl. subst result. unfold index_pairs.
    rewrite flat_map_flat_map.
    erewrite flat_map_ext; [reflexivity|].
    intro i. simpl. now rewrite flat_map_map.
  - intros i acc Hi. apply in_range in Hi.
    apply for_each_appends. intros j acc' Hj. apply in_range in Hj.
    apply pair_body_contribution; lia.
Qed.

(** A returned point names the pair that produced it. *)
Lemma in_result_contribution (p : LPProblem) (x1 x2 : Q) (i j : nat) :
  In (x1, x2, [i; j])
    (flat_map (contribution p) (index_pairs (List.length (constraints p)))) ->
  In (x1, x2, [i; j]) (contribution p (i, j)) /\
  (i < j < List.length (constraints p))%nat.
Proof.
  intro H. apply in_flat_map in H. destruct H as ([i' j'] & Hp & Hin).
  apply in_index_pairs in Hp.
  assert (E : i' = i /\ j' = j).
  { unfold contribution in Hin.
    destruct (nth_error (constraints p) i'); [|contradiction].
    destruct (nth_error (constraints p) j'); [|contradiction].
    destruct (intersection c c0) as [y1 y2].
    destruct (_ && _); [|contradiction].
    destruct Hin as [Hin|[]]. inversion Hin. now split. }
  destruct E; subst. now split.
Qed.

Lemma contribution_cases (p : LPProblem) (i j : nat) (ci cj : Constraint) :
  nth_error (constraints p) i = Some ci ->
  nth_error (constraints p) j = Some cj ->
  let x1 := fst (intersection ci cj) in
  let x2 := snd (intersection ci cj) in
  (tol <= Qabs (det_of ci cj) /\ is_feasible p x1 x2 = true /\
   contribution p (i, j) = [(x1, x2, [i; j])]) \/
  ((Qabs (det_of ci cj) < tol \/ is_feasible p x1 x2 = false) /\
   contribution p (i, j) = []).
Proof.
  intros Ei Ej. unfold contribution. rewrite Ei, Ej.
  destruct (intersection ci cj) as [x1 x2]. cbn [fst snd].
  destruct (Qle_bool tol (Qabs (det_of ci cj))) eqn:G; cbn [andb].
  - apply Qle_bool_iff in G.
    destruct (is_feasible p x1 x2); [left|right]; auto.
  - right. split; [|reflexivity]. left.
    apply Qnot_le_lt. intro Hle. apply Qle_bool_iff in Hle. congruence.
Qed.

(** ** find_corner_points *)

(** C1, as stated, fails: in [small_coefficients_problem] the system of
    the pair [(0, 1)] has the one solution [(1e6, 1e6)], which is
    feasible, and the pair contributes nothing, its determinant being
    [1e-12]. *)
Lemma small_coefficients_pair_not_included :
  ~ includes_every_unique_feasible_intersection small_coefficients_problem.
Proof.
  intro H.
  destruct (H 0%nat 1%nat
              (mkConstraint (1 # 1000000) 0 1 LESS_EQUAL)
              (mkConstraint 0 (1 # 1000000) 1 LESS_EQUAL)
              1000000 1000000 []
              (set_corner_points small_coefficients_problem []))
    as (y1 & y2 & _ & _ & Hin).
  - lia.
  - reflexivity.
  - reflexivity.
  - unfold unique_solution, on_line; simpl.
    repeat split; try reflexivity; Lqa.lra.
  - reflexivity.
  - reflexivity.
  - exact Hin.
Qed.

(** ** The stable maximum and find_optimal_solution *)

Section StableMax.
Context {A : Type} (key : A -> Q).

Lemma max_from_invariant (l : list A) :
  forall (before : list A) (best : A) (after : list A),
    Forall (fun x => key x < key best) before ->
    Forall (fun x => key x <= key best) after ->
    first_max key (before ++ best :: after ++ l) (max_from key best l).
Proof.
  induction l as [|x l IH]; intros before best after Hb Ha; simpl.
  - exists before, after. now rewrite app_nil_r.
  - destruct (Qlt_bool (key best) (key x)) eqn:E.
    + apply Qlt_bool_iff in E.
      replace (before ++ best :: after ++ x :: l)
        with ((before ++ best :: after) ++ x :: [] ++ l)
        by (now rewrite <- app_assoc).
      apply IH; [|constructor].
      apply Forall_app. split; [|constructor].
      * eapply Forall_impl; [|exact Hb]. simpl. intros. Lqa.lra.
      * exact E.
      * eapply Forall_impl; [|exact Ha]. simpl. intros. Lqa.lra.
    + apply Qlt_bool_false_iff in E.
      replace (before ++ best :: after ++ x :: l)
        with (before ++ best :: (after ++ [x]) ++ l)
        by (now rewrite <- app_assoc).
      apply IH; [assumption|].
      apply Forall_app. split; [assumption|]. now constructor.
Qed.

Lemma py_max_first (x : A) (l : list A) :
  exists m, py_max key (x :: l) = Ok m /\ first_max key (x :: l) m.
Proof.
  exists (max_from key x l). split; [reflexivity|].
  apply (max_from_invariant l [] x []); constructor.
Qed.
End StableMax.


(** C3.  On [box_problem], [find_corner_points] returns the points
    [(4,4)], [(4,0)], [(0,4)], [(0,0)], the order of the pairs [(0,1)],
    [(0,3)], [(1,2)], [(2,3)] that produce them; they are the four points
    [(0,0)], [(4,0)], [(4,4)], [(0,4)]; and [find_optimal_solution]
    returns [(4, 4)] with value [20]. *)
Theorem box_problem_corner_points_and_optimum :
  find_corner_points box_problem =
    Ok (box_corner_points, set_corner_points box_problem box_corner_points) /\
  Permutation (map fst box_corner_points) [ (0, 0); (4, 0); (4, 4); (0, 4) ] /\
  find_optimal_solution box_problem =
    Ok (Some (4, 4, 20, [0%nat; 1%nat]),
        set_corner_points box_problem box_corner_points).
Proof.
  split; [vm_compute; reflexivity|].
  split; [|vm_compute; reflexivity].
  simpl.
  apply (Permutation_cons_app [(0, 0); (4, 0)] [(0, 4)]).
  apply (Permutation_cons_app [(0, 0)] [(0, 4)]).
  apply perm_swap.
Qed.

(** ** is_bounded *)

Lemma bound_is_iff (bd : Bound) (o : option Bound) :
  bound_is bd o = true <-> o = Some bd.
Proof.
  destruct o as [[]|], bd; simpl; split; intro H;
    try reflexivity; try discriminate.
Qed.

Lemma bounds_x1b_iff (bd : Bound) (c : Constraint) :
  bounds_x1b bd c = true <-> bounds_x1 bd c.
Proof.
  unfold bounds_x1b, bounds_x1.
  now rewrite andb_true_iff, Qlt_bool_iff, bound_is_iff.
Qed.

Lemma bounds_x2b_iff (bd : Bound) (c : Constraint) :
  bounds_x2b bd c = true <-> bounds_x2 bd c.
Proof.
  unfold bounds_x2b, bounds_x2.
  now rewrite andb_true_iff, Qlt_bool_iff, bound_is_iff.
Qed.

(** What one pass of the loop body does to each flag. *)
Lemma scan_step (f : Flags) (c : Constraint) :
  has_x1_lower_bound (scan f c) = has_x1_lower_bound f || bounds_x1b Lower c /\
  has_x1_upper_bound (scan f c) = has_x1_upper_bound f || bounds_x1b Upper c /\
  has_x2_lower_bound (scan f c) = has_x2_lower_bound f || bounds_x2b Lower c /\
  has_x2_upper_bound (scan f c) = has_x2_upper_bound f || bounds_x2b Upper c.
Proof.
  unfold scan, scan_x1, scan_x2, bounds_x1b, bounds_x2b, classify.
  destruct (Qlt_bool (Qabs (a2 c)) tol), (Qlt_bool (Qabs (a1 c)) tol),
    (Qlt_bool 0 (a1 c)), (Qlt_bool (a1 c) 0),
    (Qlt_bool 0 (a2 c)), (Qlt_bool (a2 c) 0),
    (constraint_type c);
    cbn; rewrite ?orb_false_r, ?orb_true_r; auto.
Qed.

Lemma scan_fold (cs : list Constraint) :
  forall f,
    has_x1_lower_bound (fold_left scan cs f)
      = has_x1_lower_bound f || existsb (bounds_x1b Lower) cs /\
    has_x1_upper_bound (fold_left scan cs f)
      = has_x1_upper_bound f || existsb (bounds_x1b Upper) cs /\
    has_x2_lower_bound (fold_left scan cs f)
      = has_x2_lower_bound f || existsb (bounds_x2b Lower) cs /\
    has_x2_upper_bound (fold_left scan cs f)
      = has_x2_upper_bound f || existsb (bounds_x2b Upper) cs.
Proof.
  induction cs as [|c cs IH]; intro f; simpl.
  - now rewrite !orb_false_r.
  - destruct (IH (scan f c)) as (H1 & H2 & H3 & H4).
    destruct (scan_step f c) as (S1 & S2 & S3 & S4).
    rewrite H1, H2, H3, H4, S1, S2, S3, S4, !orb_assoc. auto.
Qed.

Lemma is_bounded_existsb (p : LPProblem) :
  is_bounded p =
    existsb (bounds_x1b Lower) (constraints p) &&
    existsb (bounds_x1b Upper) (constraints p) &&
    existsb (bounds_x2b Lower) (constraints p) &&
    existsb (bounds_x2b Upper) (constraints p).
Proof.
  unfold is_bounded, scan_all.
  destruct (scan_fold (constraints p) (mkFlags false false false false))
    as (H1 & H2 & H3 & H4).
  now rewrite H1, H2, H3, H4.
Qed.

Lemma existsb_bounds_x1 (bd : Bound) (cs : list Constraint) :
  existsb (bounds_x1b bd) cs = true <-> exists c, In c cs /\ bounds_x1 bd c.
Proof.
  rewrite existsb_exists.
  split; intros (c & Hin & H); exists c; split; auto; now apply bounds_x1b_iff.
Qed.

Lemma existsb_bounds_x2 (bd : Bound) (cs : list Constraint) :
  existsb (bounds_x2b bd) cs = true <-> exists c, In c cs /\ bounds_x2 bd c.
Proof.
  rewrite existsb_exists.
  split; intros (c & Hin & H); exists c; split; auto; now apply bounds_x2b_iff.
Qed.

Lemma is_bounded_iff (p : LPProblem) :
  is_bounded p = true <->
  (exists c, In c (constraints p) /\ bounds_x1 Lower c) /\
  (exists c, In c (constraints p) /\ bounds_x1 Upper c) /\
  (exists c, In c (constraints p) /\ bounds_x2 Lower c) /\
  (exists c, In c (constraints p) /\ bounds_x2 Upper c).
Proof.
  rewrite is_bounded_existsb, !andb_true_iff,
    !existsb_bounds_x1, !existsb_bounds_x2.
  tauto.
Qed.

Lemma non_axis_aligned_no_bound (bd : Bound) (c : Constraint) :
  non_axis_aligned c -> ~ bounds_x1 bd c /\ ~ bounds_x2 bd c.
Proof.
  intros [H1 H2]. split; intros [H _]; revert H; now apply Qle_not_lt.
Qed.

Lemma single_axis_constraint_unbounded (p : LPProblem)
  (before : list Constraint) (c : Constraint) (after : list Constraint) :
  constraints p = before ++ c :: after ->
  Forall non_axis_aligned (before ++ after) ->
  is_bounded p = false.
Proof.
  intros E F. apply not_true_is_false. intro H.
  apply is_bounded_iff in H.
  destruct H as ((cl & Hl & Bl) & (cu & Hu & Bu) & _).
  rewrite Forall_forall in F.
  assert (Hc : forall bd c', In c' (constraints p) -> bounds_x1 bd c' -> c' = c).
  { intros bd c' Hin Hb. rewrite E in Hin.
    apply in_app_or in Hin. destruct Hin as [Hin|[Hin|Hin]]; [|now symmetry|].
    - destruct (non_axis_aligned_no_bound bd c') as [N _]; [|now elim N].
      apply F, in_or_app. now left.
    - destruct (non_axis_aligned_no_bound bd c') as [N _]; [|now elim N].
      apply F, in_or_app. now right. }
  apply Hc in Bl as El; auto. apply Hc in Bu as Eu; auto. subst.
  destruct Bl as [_ Bl], Bu as [_ Bu]. congruence.
Qed.

(** C5.  [is_bounded] returns true exactly when, among the constraints
    whose other coefficient is below [1e-10] in magnitude and classified
    by the table, each axis has a lower and an upper bound.  Hence it
    returns false whenever all constraints but one are not axis-aligned,
    as in a triangle cut by two slanted lines and one axis line, and true
    for a box with a lower and an upper bound on each axis. *)
Theorem is_bounded_axis_scan :
  (forall p,
     is_bounded p = true <->
     (exists c, In c (constraints p) /\ bounds_x1 Lower c) /\
     (exists c, In c (constraints p) /\ bounds_x1 Upper c) /\
     (exists c, In c (constraints p) /\ bounds_x2 Lower c) /\
     (exists c, In c (constraints p) /\ bounds_x2 Upper c)) /\
  (forall p t1 t2 axis,
     non_axis_aligned t1 -> non_axis_aligned t2 ->
     Permutation (constraints p) [t1; t2; axis] ->
     is_bounded p = false) /\
  is_bounded triangle_problem = false /\
  (forall c1 c2 lo1 hi1 lo2 hi2 cache,
     is_bounded
       (mkLPProblem c1 c2
          [ mkConstraint 1 0 lo1 GREATER_EQUAL; mkConstraint 1 0 hi1 LESS_EQUAL;
            mkConstraint 0 1 lo2 GREATER_EQUAL; mkConstraint 0 1 hi2 LESS_EQUAL ]
          cache) = true) /\
  is_bounded box_problem = true.
Proof.
  split; [exact is_bounded_iff|].
  split; [|repeat split; reflexivity].
  intros p t1 t2 axis H1 H2 Hperm.
  assert (Hin : In axis (constraints p)).
  { eapply Permutation_in; [symmetry; exact Hperm|]. simpl. auto. }
  apply in_split in Hin. destruct Hin as (before & after & E).
  apply (single_axis_constraint_unbounded p before axis after E).
  rewrite E in Hperm.
  apply (Permutation_app_inv before after [t1; t2] [] axis) in Hperm.
  apply Forall_forall. intros c Hc.
  assert (Hc' : In c ([t1; t2] ++ [])).
  { eapply Permutation_in; [exact Hperm|exact Hc]. }
  destruct Hc' as [<-|[<-|[]]]; assumption.
Qed.

(** The triangle [x1 + x2 <= 4], [x1 - x2 >= 0], [x2 >= 0]. *)
Lemma is_bounded_axis_scan_witness : is_bounded triangle_problem = false.
Proof.
  destruct is_bounded_axis_scan as (_ & H & _).
  apply (H triangle_problem
           (mkConstraint 1 1 4 LESS_EQUAL)
           (mkConstraint 1 (-1) 0 GREATER_EQUAL)
           (mkConstraint 0 1 0 GREATER_EQUAL)).
  - split; vm_compute; discriminate.
  - split; vm_compute; discriminate.
  - apply Permutation_refl.
Defined.

Lemma scan_equality (f : Flags) (c : Constraint) :
  constraint_type c = EQUAL -> scan f c = f.
Proof.
  intro E. unfold scan, scan_x1, scan_x2. rewrite E.
  repeat match goal with |- context [if ?t then _ else _] => destruct t end;
    reflexivity.
Qed.

Lemma scan_filter_equalities (cs : list Constraint) :
  forall f,
    fold_left scan (filter (fun c => negb (is_equality c)) cs) f
    = fold_left scan cs f.
Proof.
  induction cs as [|c cs IH]; intro f; simpl; [reflexivity|].
  unfold is_equality at 1.
  destruct (constraint_type c) eqn:E; simpl; rewrite IH; try reflexivity.
  now rewrite (scan_equality f c E).
Qed.

Lemma equality_no_bound (bd : Bound) (c : Constraint) :
  constraint_type c = EQUAL -> ~ bounds_x1 bd c /\ ~ bounds_x2 bd c.
Proof.
  intro E. unfold bounds_x1, bounds_x2. rewrite E. simpl.
  split; intros [_ H]; discriminate.
Qed.

(** C10.  An [EQUAL] constraint leaves the four flags of the scan as
    they are, so [is_bounded] gives the same answer with the equalities
    taken out; when the only axis-aligned constraints of an axis are
    equalities the answer is false, as for the segment [x1 = 5],
    [0 <= x2 <= 3]. *)
Theorem is_bounded_ignores_equalities :
  (forall f c, constraint_type c = EQUAL -> scan f c = f) /\
  (forall p,
     is_bounded p =
     is_bounded
       (set_constraints p
          (filter (fun c => negb (is_equality c)) (constraints p)))) /\
  (forall p,
     Forall (fun c => Qabs (a2 c) < tol -> constraint_type c = EQUAL)
       (constraints p) ->
     is_bounded p = false) /\
  (forall p,
     Forall (fun c => Qabs (a1 c) < tol -> constraint_type c = EQUAL)
       (constraints p) ->
     is_bounded p = false) /\
  is_bounded segment_problem = false.
Proof.
  split; [exact scan_equality|].
  split.
  { intro p. unfold is_bounded, scan_all. simpl.
    now rewrite scan_filter_equalities. }
  split; [|split; [|reflexivity]].
  - intros p F. apply not_true_is_false. intro H.
    apply is_bounded_iff in H. destruct H as ((c & Hin & Hb) & _).
    rewrite Forall_forall in F.
    destruct (equality_no_bound Lower c) as [N _]; [|now elim N].
    apply F; [assumption|]. now destruct Hb.
  - intros p F. apply not_true_is_false. intro H.
    apply is_bounded_iff in H. destruct H as (_ & _ & (c & Hin & Hb) & _).
    rewrite Forall_forall in F.
    destruct (equality_no_bound Lower c) as [_ N]; [|now elim N].
    apply F; [assumption|]. now destruct Hb.
Qed.

(** The constraint [x1 = 5] and the segment it bounds. *)
Lemma is_bounded_ignores_equalities_witness :
  scan (mkFlags false false false false) (mkConstraint 1 0 5 EQUAL)
  = mkFlags false false false false /\
  is_bounded segment_problem = false.
Proof.
  destruct is_bounded_ignores_equalities as (H1 & _ & H3 & _).
  split.
  - apply H1. reflexivity.
  - apply H3. simpl. repeat constructor.
    + intro H. vm_compute in H. discriminate.
    + intro H. vm_compute in H. discriminate.
Defined.

(** ** Serialisation *)

Lemma type_of_glyph_value (t : ConstraintType) : type_of_glyph (value t) = t.
Proof. destruct t; reflexivity. Qed.

Lemma from_dict_fold (ds : list ConstraintDict) :
  forall q,
    fold_left
      (fun problem constr_data =>
         add_constraint problem (d_a1 constr_data) (d_a2 constr_data)
           (d_b constr_data) (type_of_glyph (d_type constr_data)))
      ds q
    = set_constraints q
        (constraints q ++
         map (fun d => mkConstraint (d_a1 d) (d_a2 d) (d_b d)
                         (type_of_glyph (d_type d))) ds).
Proof.
  induction ds as [|d ds IH]; intro q; simpl.
  - rewrite app_nil_r. now destruct q.
  - rewrite IH. unfold add_constraint, set_constraints. simpl.
    now rewrite <- app_assoc.
Qed.

Lemma from_dict_constraints (data : ProblemDict) :
  from_dict data =
    mkLPProblem (d_c1 data) (d_c2 data)
      (map (fun d => mkConstraint (d_a1 d) (d_a2 d) (d_b d)
                       (type_of_glyph (d_type d))) (d_constraints data))
      [].
Proof. unfold from_dict. now rewrite from_dict_fold. Qed.

(** C7.  Reading back what [to_dict] wrote gives a problem with the same
    [c1] and [c2] and the same constraints: as many, in the same order,
    each with the same [a1], [a2], [b] and type. *)
Theorem from_dict_to_dict (p : LPProblem) :
  let p' := from_dict (to_dict p) in
  c1 p' = c1 p /\ c2 p' = c2 p /\
  List.length (constraints p') = List.length (constraints p) /\
  (forall i, nth_error (constraints p') i = nth_error (constraints p) i) /\
  constraints p' = constraints p.
Proof.
  assert (E : constraints (from_dict (to_dict p)) = constraints p).
  { rewrite from_dict_constraints. unfold to_dict. simpl.
    rewrite map_map. rewrite <- (map_id (constraints p)) at 2.
    apply map_ext. intros [x y z t]. simpl. now rewrite type_of_glyph_value. }
  intro p'. subst p'. rewrite E.
  rewrite from_dict_constraints. simpl. auto.
Qed.

(** C9.  [from_dict] accepts every type string: one that is neither the
    LE glyph nor the EQ glyph yields a [GREATER_EQUAL] constraint, and no
    record is rejected.  So strings other than the GE glyph are read as
    [GREATER_EQUAL] too. *)
Theorem from_dict_unknown_type_is_greater_equal (s : string) :
  s <> value LESS_EQUAL -> s <> value EQUAL ->
  type_of_glyph s = GREATER_EQUAL /\
  (forall c1 c2 x y z,
     from_dict (mkProblemDict c1 c2 [mkConstraintDict x y z s])
     = mkLPProblem c1 c2 [mkConstraint x y z GREATER_EQUAL] []) /\
  (forall data,
     List.length (constraints (from_dict data))
     = List.length (d_constraints data)) /\
  (exists s', s' <> value GREATER_EQUAL /\ type_of_glyph s' = GREATER_EQUAL).
Proof.
  intros Hle Heq.
  assert (E : type_of_glyph s = GREATER_EQUAL).
  { unfold type_of_glyph.
    destruct (String.eqb_spec s "≤") as [->|_]; [now elim Hle|].
    destruct (String.eqb_spec s "=") as [->|_]; [now elim Heq|].
    reflexivity. }
  split; [exact E|]. split; [|split].
  - intros. rewrite from_dict_constraints. simpl. now rewrite E.
  - intro data. rewrite from_dict_constraints. simpl. apply length_map.
  - exists "unknown"%string. split; [discriminate|reflexivity].
Qed.

(** The type string [">="]. *)
Lemma from_dict_unknown_type_is_greater_equal_witness :
  type_of_glyph ">=" = GREATER_EQUAL /\
  from_dict (mkProblemDict 2 3 [mkConstraintDict 1 0 4 ">="])
  = mkLPProblem 2 3 [mkConstraint 1 0 4 GREATER_EQUAL] [].
Proof.
  destruct (from_dict_unknown_type_is_greater_equal ">="%string)
    as (H1 & H2 & _).
  - discriminate.
  - discriminate.
  - split; [exact H1|apply H2].
Defined.

(** ** remove_constraint *)

Lemma remove_at_split {A : Type} (l : list A) :
  forall i, (i < List.length l)%nat ->
    exists before x after,
      l = before ++ x :: after /\ List.length before = i /\
      remove_at i l = before ++ after.
Proof.
  induction l as [|y l IH]; intros i Hi; simpl in Hi; [lia|].
  destruct i as [|i].
  - exists [], y, l. auto.
  - destruct (IH i) as (before & x & after & E & Hlen & Hr); [lia|].
    exists (y :: before), x, after. simpl. rewrite Hr, Hlen.
    repeat split; auto. now rewrite E at 1.
Qed.

(** C8.  With [0 <= index < len], [remove_constraint] takes out the
    constraint at position [index]: those before it and those after it
    stay, in their order, and [c1], [c2] and the cache are untouched.
    With any other index the problem is returned as it is.  No case
    raises. *)
Theorem remove_constraint_in_and_out_of_range (p : LPProblem) (index : Z) :
  ((0 <= index < Z.of_nat (List.length (constraints p)))%Z ->
     exists before c after,
       constraints p = before ++ c :: after /\
       Z.of_nat (List.length before) = index /\
       remove_constraint p index =
         Ok (mkLPProblem (c1 p) (c2 p) (before ++ after) (corner_points p))) /\
  (~ (0 <= index < Z.of_nat (List.length (constraints p)))%Z ->
     remove_constraint p index = Ok p).
Proof.
  unfold remove_constraint. split; intro H.
  - destruct (remove_at_split (constraints p) (Z.to_nat index))
      as (before & c & after & E & Hlen & Hr); [lia|].
    exists before, c, after. split; [exact E|]. split; [lia|].
    replace ((0 <=? index)%Z && (index <? _)%Z) with true
      by (symmetry; apply andb_true_iff; split; [apply Z.leb_le|apply Z.ltb_lt];
          lia).
    unfold pop.
    replace (index <? 0)%Z with false by (symmetry; apply Z.ltb_ge; lia).
    replace ((0 <=? index)%Z && (index <? _)%Z) with true
      by (symmetry; apply andb_true_iff; split; [apply Z.leb_le|apply Z.ltb_lt];
          lia).
    cbn [bind]. now rewrite Hr.
  - replace ((0 <=? index)%Z && (index <? _)%Z) with false; [reflexivity|].
    symmetry. apply andb_false_iff.
    destruct (Z.leb_spec 0 index); [right|now left].
    apply Z.ltb_ge. lia.
Qed.

(** [box_problem] at the indices [1], [-1] and [4]. *)
Lemma remove_constraint_in_and_out_of_range_witness :
  (exists before c after,
     constraints box_problem = before ++ c :: after /\
     Z.of_nat (List.length before) = 1%Z /\
     remove_constraint box_problem 1 =
       Ok (mkLPProblem 2 3 (before ++ after) [])) /\
  remove_constraint box_problem (-1) = Ok box_problem /\
  remove_constraint box_problem 4 = Ok box_problem.
Proof.
  split; [|split].
  - apply (remove_constraint_in_and_out_of_range box_problem 1). simpl. lia.
  - apply (remove_constraint_in_and_out_of_range box_problem (-1)). simpl. lia.
  - apply (remove_constraint_in_and_out_of_range box_problem 4). simpl. lia.
Defined.

(** * Further properties *)

(** ** Constraint satisfaction and feasibility *)

(** X3.  [add_constraint] appends: the constraints already there keep
    their positions, the new one takes the next index, the cache of
    corner points is left as it was, and a point is feasible afterwards
    exactly when it was feasible before and satisfies the new
    constraint. *)
Theorem add_constraint_appends (p : LPProblem) (a1 a2 b : Q)
  (t : ConstraintType) :
  let p' := add_constraint p a1 a2 b t in
  constraints p' = constraints p ++ [mkConstraint a1 a2 b t] /\
  nth_error (constraints p') (List.length (constraints p))
    = Some (mkConstraint a1 a2 b t) /\
  corner_points p' = corner_points p /\
  (forall x1 x2,
     is_feasible p' x1 x2 =
     is_feasible p x1 x2 && is_satisfied (mkConstraint a1 a2 b t) x1 x2).
Proof.
  cbv zeta. unfold add_constraint, is_feasible.
  cbn [constraints set_constraints corner_points].
  repeat split.
  - rewrite nth_error_app2 by lia. now rewrite Nat.sub_diag.
  - intros x1 x2. rewrite forallb_app. cbn [forallb]. now rewrite andb_true_r.
Qed.

Lemma remove_constraint_cases (p : LPProblem) (index : Z) :
  remove_constraint p index = Ok p \/
  exists before c after,
    constraints p = before ++ c :: after /\
    remove_constraint p index = Ok (set_constraints p (before ++ after)).
Proof.
  unfold remove_constraint.
  destruct ((0 <=? index)%Z && (index <? _)%Z) eqn:G; [right|now left].
  apply andb_true_iff in G. destruct G as [G1 G2].
  apply Z.leb_le in G1. apply Z.ltb_lt in G2.
  destruct (remove_at_split (constraints p) (Z.to_nat index))
    as (before & c & after & E & _ & Hr); [lia|].
  exists before, c, after. split; [exact E|].
  unfold pop.
  replace (index <? 0)%Z with false by (symmetry; apply Z.ltb_ge; lia).
  replace ((0 <=? index)%Z && (index <? _)%Z) with true
    by (symmetry; apply andb_true_iff; split; [apply Z.leb_le|apply Z.ltb_lt];
        lia).
  cbn [bind]. now rewrite Hr.
Qed.

(** X4.  Removing a constraint never makes a feasible point infeasible:
    whatever the index, a point feasible for the problem is feasible for
    the problem [remove_constraint] returns. *)
Theorem remove_constraint_keeps_feasible (p p' : LPProblem) (index : Z)
  (x1 x2 : Q) :
  remove_constraint p index = Ok p' ->
  is_feasible p x1 x2 = true ->
  is_feasible p' x1 x2 = true.
Proof.
  intros Hr Hf.
  destruct (remove_constraint_cases p index)
    as [E|(before & c & after & Ecs & E)];
    rewrite E in Hr; inversion Hr; subst p'; [exact Hf|].
  unfold is_feasible in *. cbn [constraints set_constraints].
  rewrite Ecs in Hf. rewrite forallb_app in *. cbn [forallb] in Hf.
  apply andb_true_iff in Hf. destruct Hf as [Hb Ha].
  apply andb_true_iff in Ha. destruct Ha as [_ Ha].
  now rewrite Hb, Ha.
Qed.

(** The origin stays feasible when [x2 <= 4] is taken out of
    [box_problem]. *)
Lemma remove_constraint_keeps_feasible_witness :
  is_feasible
    (mkLPProblem 2 3
       [ mkConstraint 1 0 4 LESS_EQUAL;
         mkConstraint 1 0 0 GREATER_EQUAL;
         mkConstraint 0 1 0 GREATER_EQUAL ] []) 0 0 = true.
Proof.
  apply (remove_constraint_keeps_feasible box_problem _ 1 0 0);
    reflexivity.
Defined.

Lemma remove_at_last {A : Type} (l : list A) (x : A) :
  remove_at (List.length l) (l ++ [x]) = l.
Proof. induction l as [|y l IH]; simpl; [reflexivity|now rewrite IH]. Qed.

(** X5.  Removing the constraint just added undoes the addition:
    [remove_constraint] at the index the new constraint received gives
    back the problem as it was. *)
Theorem remove_added_constraint (p : LPProblem) (a1 a2 b : Q)
  (t : ConstraintType) :
  remove_constraint (add_constraint p a1 a2 b t)
    (Z.of_nat (List.length (constraints p))) = Ok p.
Proof.
  unfold remove_constraint, add_constraint, pop.
  cbn [constraints set_constraints]. rewrite length_app. cbn [List.length].
  replace (Z.of_nat (List.length (constraints p)) <? 0)%Z with false
    by (symmetry; apply Z.ltb_ge; lia).
  replace ((0 <=? _)%Z && (_ <? _)%Z) with true
    by (symmetry; apply andb_true_iff; split; [apply Z.leb_le|apply Z.ltb_lt];
        lia).
  cbn [bind]. rewrite Nat2Z.id, remove_at_last. now destruct p.
Qed.

(** ** More on find_corner_points *)

Lemma in_contribution (p : LPProblem) (i j : nat) (pt : CornerPoint) :
  In pt (contribution p (i, j)) ->
  exists ci cj,
    nth_error (constraints p) i = Some ci /\
    nth_error (constraints p) j = Some cj /\
    pt = (fst (intersection ci cj), snd (intersection ci cj), [i; j]) /\
    tol <= Qabs (det_of ci cj) /\
    is_feasible p (fst (intersection ci cj)) (snd (intersection ci cj)) = true.
Proof.
  intro Hin. unfold contribution in Hin.
  destruct (nth_error (constraints p) i) as [ci|] eqn:Ei; [|contradiction].
  destruct (nth_error (constraints p) j) as [cj|] eqn:Ej; [|contradiction].
  exists ci, cj. split; [reflexivity|]. split; [reflexivity|].
  destruct (contribution_cases p i j ci cj Ei Ej) as [(G & F & E)|(_ & E)];
    unfold contribution in E; rewrite Ei, Ej in E;
    destruct (intersection ci cj) as [x1 x2]; cbn [fst snd] in *;
    rewrite E in Hin.
  - destruct Hin as [<-|[]]. auto.
  - contradiction.
Qed.

Lemma contribution_length (p : LPProblem) (ij : nat * nat) :
  (List.length (contribution p ij) <= 1)%nat.
Proof.
  unfold contribution. destruct ij as [i j].
  destruct (nth_error _ i); [|simpl; lia].
  destruct (nth_error _ j); [|simpl; lia].
  destruct (intersection _ _). destruct (_ && _); simpl; lia.
Qed.

Lemma flat_map_length_le {A B : Type} (f : A -> list B) (l : list A) :
  (forall x, (List.length (f x) <= 1)%nat) ->
  (List.length (flat_map f l) <= List.length l)%nat.
Proof.
  intro H. induction l as [|x l IH]; simpl; [lia|].
  rewrite length_app. specialize (H x). lia.
Qed.

Lemma rows_length (n k : nat) :
  forall a, (a + k = n)%nat ->
    (2 * List.length
           (flat_map (fun i => map (fun j => (i, j)) (range (i + 1) n))
              (seq a k))
     = k * (k - 1))%nat.
Proof.
  induction k as [|k IH]; intros a E; [reflexivity|].
  cbn [seq flat_map]. rewrite length_app, length_map.
  unfold range at 1. rewrite length_seq.
  specialize (IH (S a)). destruct k as [|k]; [simpl in *; lia|].
  replace (S (S k) - 1)%nat with (S k) by lia.
  replace (S k - 1)%nat with k in IH by lia.
  nia.
Qed.

Lemma index_pairs_length (n : nat) :
  (2 * List.length (index_pairs n) = n * (n - 1))%nat.
Proof. unfold index_pairs, range at 2. rewrite Nat.sub_0_r. now apply rows_length. Qed.

(** X7.  With [n] constraints [find_corner_points] returns at most
    [n (n - 1) / 2] points; with fewer than two constraints it returns
    none, and [find_optimal_solution] then returns [None]. *)
Theorem corner_points_count (p : LPProblem) :
  let n := List.length (constraints p) in
  exists cps p',
    find_corner_points p = Ok (cps, p') /\
    (2 * List.length cps <= n * (n - 1))%nat /\
    ((n < 2)%nat ->
       cps = [] /\ find_optimal_solution p = Ok (None, p')).
Proof.
  intro n. pose proof (find_corner_points_flat_map p) as Hf. cbv zeta in Hf.
  fold n in Hf. set (cps := flat_map (contribution p) (index_pairs n)) in *.
  exists cps, (set_corner_points p cps). split; [exact Hf|].
  assert (Hlen : (2 * List.length cps <= n * (n - 1))%nat).
  { rewrite <- index_pairs_length. subst cps.
    pose proof (flat_map_length_le (contribution p) (index_pairs n)
                  (contribution_length p)). lia. }
  split; [exact Hlen|].
  intro Hn.
  assert (E : cps = []).
  { destruct cps; [reflexivity|]. simpl in Hlen.
    destruct n as [|[|n]]; simpl in Hlen; lia. }
  split; [exact E|].
  unfold find_optimal_solution. rewrite Hf. cbn [bind]. now rewrite E.
Qed.

(** A problem with the single constraint [x1 <= 4]. *)
Lemma corner_points_count_witness :
  exists cps p',
    find_corner_points (add_constraint (new_problem 1 1) 1 0 4 LESS_EQUAL)
      = Ok (cps, p') /\
    cps = [] /\
    find_optimal_solution (add_constraint (new_problem 1 1) 1 0 4 LESS_EQUAL)
      = Ok (None, p').
Proof.
  destruct (corner_points_count
              (add_constraint (new_problem 1 1) 1 0 4 LESS_EQUAL))
    as (cps & p' & Hf & _ & H).
  exists cps, p'. split; [exact Hf|]. apply H. simpl. lia.
Defined.

(** X8.  The result of [find_corner_points] does not depend on the
    cache it overwrites: any cached list gives the same points, and a
    second call on the returned problem returns the same list and leaves
    that problem as it is. *)
Theorem find_corner_points_recomputes (p p' : LPProblem)
  (cps : list CornerPoint) :
  find_corner_points p = Ok (cps, p') ->
  (forall stale,
     find_corner_points (set_corner_points p stale) = Ok (cps, p')) /\
  find_corner_points p' = Ok (cps, p').
Proof.
  intro Hf. rewrite find_corner_points_flat_map in Hf.
  inversion Hf as [[E1 E2]]. clear Hf.
  split.
  - intro stale. rewrite find_corner_points_flat_map. reflexivity.
  - rewrite find_corner_points_flat_map. reflexivity.
Qed.

(** [box_problem] with a stale cache. *)
Lemma find_corner_points_recomputes_witness :
  find_corner_points (set_corner_points box_problem [(9, 9, [7%nat; 8%nat])])
  = Ok (box_corner_points, set_corner_points box_problem box_corner_points) /\
  find_corner_points (set_corner_points box_problem box_corner_points)
  = Ok (box_corner_points, set_corner_points box_problem box_corner_points).
Proof.
  destruct (find_corner_points_recomputes box_problem
              (set_corner_points box_problem box_corner_points)
              box_corner_points) as [H1 H2].
  - vm_compute. reflexivity.
  - split; [apply H1|exact H2].
Defined.

Lemma in_result_feasible (p : LPProblem) (pt : CornerPoint) :
  In pt (flat_map (contribution p)
           (index_pairs (List.length (constraints p)))) ->
  is_feasible p (fst (fst pt)) (snd (fst pt)) = true.
Proof.
  intro Hin. apply in_flat_map in Hin. destruct Hin as ([i j] & _ & Hin).
  apply in_contribution in Hin.
  destruct Hin as (ci & cj & _ & _ & E & _ & F). now subst pt.
Qed.

Lemma contribution_indices (p : LPProblem) (l : list (nat * nat))
  (indices : list nat) :
  In indices (map snd (flat_map (contribution p) l)) ->
  exists i j, In (i, j) l /\ indices = [i; j].
Proof.
  intro Hin. apply in_map_iff in Hin. destruct Hin as (pt & <- & Hin).
  apply in_flat_map in Hin. destruct Hin as ([i j] & Hl & Hin).
  apply in_contribution in Hin.
  destruct Hin as (ci & cj & _ & _ & E & _). subst pt.
  exists i, j. now split.
Qed.

Lemma sorted_pairs_distinct_indices (p : LPProblem) (l : list (nat * nat)) :
  StronglySorted lex_lt l ->
  NoDup (map snd (flat_map (contribution p) l)).
Proof.
  induction 1 as [|[i j] l S IH F]; [constructor|].
  cbn [flat_map]. rewrite map_app.
  destruct (contribution p (i, j)) as [|pt rest] eqn:E; [exact IH|].
  assert (Hpt : pt = (fst (fst pt), snd (fst pt), [i; j]) /\ rest = []).
  { pose proof (contribution_length p (i, j)) as Hlen. rewrite E in Hlen.
    destruct rest; [|simpl in Hlen; lia]. split; [|reflexivity].
    destruct (in_contribution p i j pt) as (ci & cj & _ & _ & Ept & _).
    - rewrite E. now left.
    - now rewrite Ept. }
  destruct Hpt as [Hpt ->]. rewrite Hpt. cbn [map app snd].
  constructor; [|exact IH].
  intro Hin. apply contribution_indices in Hin.
  destruct Hin as (i' & j' & Hl & Eij). inversion Eij; subst i' j'.
  rewrite Forall_forall in F. specialize (F _ Hl).
  destruct F as [F|[_ F]]; simpl in F; lia.
Qed.

(** X9.  No pair of constraints is reported twice: the index lists of
    the points [find_corner_points] returns are pairwise distinct. *)
Theorem corner_point_indices_distinct (p p' : LPProblem)
  (cps : list CornerPoint) :
  find_corner_points p = Ok (cps, p') -> NoDup (map snd cps).
Proof.
  intro Hf. rewrite find_corner_points_flat_map in Hf.
  inversion Hf; subst cps.
  apply sorted_pairs_distinct_indices, index_pairs_sorted.
Qed.

(** The four index pairs of [box_problem]. *)
Lemma corner_point_indices_distinct_witness :
  NoDup (map snd box_corner_points).
Proof.
  apply (corner_point_indices_distinct box_problem
           (set_corner_points box_problem box_corner_points)).
  vm_compute. reflexivity.
Defined.

(** ** More on find_optimal_solution *)

Lemma first_max_is_max {A : Type} (key : A -> Q) (l : list A) (m : A) :
  first_max key l m -> In m l /\ forall x, In x l -> key x <= key m.
Proof.
  intros (before & after & -> & Hb & Ha). split.
  - apply in_or_app. right. now left.
  - intros x Hx. rewrite Forall_forall in Hb, Ha.
    apply in_app_or in Hx. destruct Hx as [Hx|[<-|Hx]].
    + apply Qlt_le_weak. now apply Hb.
    + apply Qle_refl.
    + now apply Ha.
Qed.



Lemma max_from_keeps_best {A : Type} (key : A -> Q) (l : list A) (best : A) :
  Forall (fun x => key x <= key best) l -> max_from key best l = best.
Proof.
  induction 1 as [|x l Hx F IH]; simpl; [reflexivity|].
  apply Qlt_bool_false_iff in Hx. now rewrite Hx.
Qed.

(** X11.  Ties go to the first corner point: when no later point has a
    strictly greater objective value than the first one returned by
    [find_corner_points], [find_optimal_solution] reports the first. *)
Theorem first_corner_point_wins_ties (p p' : LPProblem) (pt : CornerPoint)
  (rest : list CornerPoint) :
  find_corner_points p = Ok (pt :: rest, p') ->
  Forall (fun q => point_value p q <= point_value p pt) rest ->
  find_optimal_solution p =
    Ok (Some (fst (fst pt), snd (fst pt), point_value p pt, snd pt), p').
Proof.
  intros Hf Hties. unfold find_optimal_solution. rewrite Hf. cbn [bind].
  assert (Ep : p' = set_corner_points p (pt :: rest)).
  { rewrite find_corner_points_flat_map in Hf. inversion Hf as [[E1 E2]].
    now rewrite E1. }
  subst p'. unfold py_max.
  change (fun pt0 : CornerPoint =>
            objective_value (set_corner_points p (pt :: rest))
              (fst (fst pt0)) (snd (fst pt0)))
    with (point_value p).
  rewrite (max_from_keeps_best (point_value p) rest pt Hties). cbn [bind].
  now destruct pt as [[x1 x2] indices].
Qed.

(** [box_problem]: the first corner point, [(4, 4)], is the best. *)
Lemma first_corner_point_wins_ties_witness :
  find_optimal_solution box_problem =
    Ok (Some (4, 4, point_value box_problem (4, 4, [0%nat; 1%nat]),
              [0%nat; 1%nat]),
        set_corner_points box_problem box_corner_points).
Proof.
  apply (first_corner_point_wins_ties box_problem
           (set_corner_points box_problem box_corner_points)
           (4, 4, [0%nat; 1%nat])
           [ (4, 0, [0%nat; 3%nat]); (0, 4, [1%nat; 2%nat]);
             (0, 0, [2%nat; 3%nat]) ]).
  - vm_compute. reflexivity.
  - repeat constructor; vm_compute; discriminate.
Defined.

(** ** More on is_bounded *)

(** X12.  [is_bounded] never goes from true to false when constraints
    are added or reordered: if every constraint of [p] is a constraint
    of [q] and [p] is reported bounded, so is [q]. *)
Theorem is_bounded_monotone (p q : LPProblem) :
  incl (constraints p) (constraints q) ->
  is_bounded p = true -> is_bounded q = true.
Proof.
  intros Hincl H. apply is_bounded_iff in H. apply is_bounded_iff.
  destruct H as ((c1 & H1 & B1) & (c2 & H2 & B2) & (c3 & H3 & B3)
                 & (c4 & H4 & B4)).
  repeat split; [exists c1|exists c2|exists c3|exists c4]; auto.
Qed.

(** [box_problem] with its constraints reversed and [x1 + x2 <= 6]
    added. *)
Lemma is_bounded_monotone_witness :
  is_bounded
    (mkLPProblem 2 3
       (mkConstraint 1 1 6 LESS_EQUAL :: rev (constraints box_problem)) [])
  = true.
Proof.
  apply (is_bounded_monotone box_problem).
  - intros c Hc. right. apply in_rev. now rewrite rev_involutive.
  - reflexivity.
Defined.

Lemma existsb_map_same {A : Type} (f g : A -> bool) (h : A -> A)
  (l : list A) :
  (forall x, f (h x) = g x) -> existsb f (map h l) = existsb g l.
Proof.
  intro H. induction l as [|x l IH]; simpl; [reflexivity|].
  now rewrite H, IH.
Qed.

(** X13.  [is_bounded] never reads a right-hand side: replacing the
    [b] of every constraint by any other value, and the objective and
    the cache by any others, leaves its answer unchanged. *)
Theorem is_bounded_ignores_right_hand_sides (p : LPProblem)
  (rhs : Constraint -> Q) (k1 k2 : Q) (cache : list CornerPoint) :
  is_bounded
    (mkLPProblem k1 k2
       (map (fun c => mkConstraint (a1 c) (a2 c) (rhs c) (constraint_type c))
          (constraints p))
       cache)
  = is_bounded p.
Proof.
  rewrite !is_bounded_existsb. cbn [constraints].
  now rewrite
    (existsb_map_same (bounds_x1b Lower) (bounds_x1b Lower)),
    (existsb_map_same (bounds_x1b Upper) (bounds_x1b Upper)),
    (existsb_map_same (bounds_x2b Lower) (bounds_x2b Lower)),
    (existsb_map_same (bounds_x2b Upper) (bounds_x2b Upper)).
Qed.

(** ** suggest_initial_point *)

Lemma probe_row_find (p : LPProblem) (x1 : Q) (x2s : list Q) :
  probe_row p x1 x2s =
  find (fun pt => is_feasible p (fst pt) (snd pt))
    (map (fun x2 => (x1, x2)) x2s).
Proof.
  induction x2s as [|x2 x2s IH]; simpl; [reflexivity|].
  now destruct (is_feasible p x1 x2).
Qed.

Lemma find_app {A : Type} (f : A -> bool) (l1 l2 : list A) :
  find f (l1 ++ l2) =
  match find f l1 with
  | Some x => Some x
  | None => find f l2
  end.
Proof.
  induction l1 as [|x l1 IH]; simpl; [reflexivity|].
  now destruct (f x).
Qed.

Lemma probe_grid_find (p : LPProblem) (x1s x2s : list Q) :
  probe_grid p x1s x2s =
  find (fun pt => is_feasible p (fst pt) (snd pt)) (list_prod x1s x2s).
Proof.
  induction x1s as [|x1 x1s IH]; simpl; [reflexivity|].
  now rewrite find_app, <- probe_row_find, IH.
Qed.

(** X14.  [suggest_initial_point] never raises, and a point it returns
    is feasible.  It returns [None] only when there is no corner point
    and no sample of the 20 x 20 grid is feasible. *)
Theorem suggest_initial_point_feasible (p : LPProblem) :
  exists r cps p',
    find_corner_points p = Ok (cps, p') /\
    suggest_initial_point p = Ok (r, p') /\
    match r with
    | Some (x1, x2) => is_feasible p x1 x2 = true
    | None =>
        cps = [] /\
        forall x1 x2,
          In x1 (linspace 0 10 20) -> In x2 (linspace 0 10 20) ->
          is_feasible p x1 x2 = false
    end.
Proof.
  pose proof (find_corner_points_flat_map p) as Hf. cbv zeta in Hf.
  set (cps := flat_map (contribution p) _) in *.
  assert (Hfeas : forall pt, In pt cps ->
                    is_feasible p (fst (fst pt)) (snd (fst pt)) = true)
    by (intros pt; apply in_result_feasible).
  unfold suggest_initial_point. rewrite Hf. cbn [bind].
  destruct cps as [|pt rest] eqn:E.
  - eexists _, [], _. split; [reflexivity|]. split; [reflexivity|].
    rewrite probe_grid_find.
    change (is_feasible (set_corner_points p [])) with (is_feasible p).
    destruct (find _ _) as [[x1 x2]|] eqn:Efind.
    + apply find_some in Efind. apply Efind.
    + split; [reflexivity|]. intros x1 x2 H1 H2.
      apply (find_none _ _ Efind (x1, x2)). now apply in_prod.
  - eexists _, (pt :: rest), _. split; [reflexivity|].
    split; [reflexivity|].
    destruct pt as [[x1 x2] indices]. apply (Hfeas (x1, x2, indices)).
    now left.
Qed.

(** X15.  [suggest_initial_point] prefers corner points: when there is
    one it returns the first, without probing the grid.  Otherwise it
    returns the first feasible sample of the grid in row-major order
    ([x1] outer, [x2] inner). *)
Theorem suggest_initial_point_order (p p' : LPProblem)
  (cps : list CornerPoint) :
  find_corner_points p = Ok (cps, p') ->
  suggest_initial_point p =
    Ok (match cps with
        | pt :: _ => Some (fst (fst pt), snd (fst pt))
        | [] =>
            find (fun pt => is_feasible p (fst pt) (snd pt))
              (list_prod (linspace 0 10 20) (linspace 0 10 20))
        end, p').
Proof.
  intro Hf. unfold suggest_initial_point. rewrite Hf. cbn [bind].
  destruct cps as [|pt rest]; [|reflexivity].
  rewrite probe_grid_find.
  rewrite find_corner_points_flat_map in Hf. inversion Hf as [[E1 E2]].
  reflexivity.
Qed.

(** The half-plane [x1 >= 3] has no corner point; the first feasible
    sample is [(60/19, 0)]. *)
Lemma suggest_initial_point_order_witness :
  suggest_initial_point (add_constraint (new_problem 1 1) 1 0 3 GREATER_EQUAL)
  = Ok (Some (60 # 19, 0 # 19),
        set_corner_points
          (add_constraint (new_problem 1 1) 1 0 3 GREATER_EQUAL) []).
Proof.
  rewrite (suggest_initial_point_order
             (add_constraint (new_problem 1 1) 1 0 3 GREATER_EQUAL)
             (set_corner_points
                (add_constraint (new_problem 1 1) 1 0 3 GREATER_EQUAL) [])
             []).
  - vm_compute. reflexivity.
  - vm_compute. reflexivity.
Defined.

(** ** get_line_points *)

Lemma py_divQ_nonzero (x y : Q) : ~ y == 0 -> py_divQ x y = Ok (x / y).
Proof.
  intro H. unfold py_divQ. destruct (Qeq_bool y 0) eqn:E; [|reflexivity].
  apply Qeq_bool_eq in E. contradiction.
Qed.



(** ** More on serialisation *)

(** X18.  Reading back what [to_dict] wrote restores everything but
    the cache, which comes back empty: the round trip returns the problem
    itself exactly when its cache of corner points is empty. *)
Theorem from_dict_to_dict_drops_cache (p : LPProblem) :
  from_dict (to_dict p) = set_corner_points p [] /\
  (from_dict (to_dict p) = p <-> corner_points p = []).
Proof.
  assert (E : from_dict (to_dict p) = set_corner_points p []).
  { rewrite from_dict_constraints. unfold to_dict, set_corner_points.
    cbn [d_c1 d_c2 d_constraints]. f_equal.
    rewrite map_map. rewrite <- (map_id (constraints p)) at 2.
    apply map_ext. intros [x y z t]. simpl. now rewrite type_of_glyph_value. }
  split; [exact E|]. rewrite E. split.
  - intro H. rewrite <- H. reflexivity.
  - intro H. destruct p. simpl in *. now rewrite H.
Qed.

Lemma map_fixes {A : Type} (f : A -> A) (l : list A) :
  map f l = l <-> Forall (fun x => f x = x) l.
Proof.
  induction l as [|x l IH]; simpl.
  - split; [constructor|reflexivity].
  - split.
    + intro H. injection H as Hx Hl. constructor; [exact Hx|now apply IH].
    + intro H. inversion H as [|? ? Hx Hl]; subst.
      rewrite Hx. f_equal. now apply IH.
Qed.

(** X19.  Writing out what [from_dict] read gives back the same
    dictionary exactly when the type string of every constraint record is
    one of the three glyphs; any other string comes back as the GE
    glyph. *)
Theorem to_dict_from_dict (data : ProblemDict) :
  (to_dict (from_dict data) = data <->
   Forall (fun d => exists t, d_type d = value t) (d_constraints data)) /\
  d_constraints (to_dict (from_dict data)) =
    map (fun d => mkConstraintDict (d_a1 d) (d_a2 d) (d_b d)
                    (value (type_of_glyph (d_type d))))
      (d_constraints data).
Proof.
  assert (E : to_dict (from_dict data) =
              mkProblemDict (d_c1 data) (d_c2 data)
                (map (fun d => mkConstraintDict (d_a1 d) (d_a2 d) (d_b d)
                                 (value (type_of_glyph (d_type d))))
                   (d_constraints data))).
  { rewrite from_dict_constraints. unfold to_dict.
    cbn [c1 c2 constraints]. now rewrite map_map. }
  split; [|now rewrite E].
  rewrite E. destruct data as [k1 k2 ds]. cbn [d_c1 d_c2 d_constraints].
  split.
  - intro H. injection H as Hm. apply map_fixes in Hm.
    eapply Forall_impl; [|exact Hm].
    intros d Hd. exists (type_of_glyph (d_type d)).
    apply (f_equal d_type) in Hd. now symmetry.
  - intro H. f_equal. apply map_fixes.
    eapply Forall_impl; [|exact H].
    intros [x y z s] [t Ht]. simpl in *. subst s.
    now rewrite type_of_glyph_value.
Qed.

(** ** Adding a constraint and the corner points *)

Lemma in_contribution_iff (p : LPProblem) (i j : nat) (ci cj : Constraint)
  (pt : CornerPoint) :
  nth_error (constraints p) i = Some ci ->
  nth_error (constraints p) j = Some cj ->
  (In pt (contribution p (i, j)) <->
   pt = (fst (intersection ci cj), snd (intersection ci cj), [i; j]) /\
   tol <= Qabs (det_of ci cj) /\
   is_feasible p (fst (intersection ci cj)) (snd (intersection ci cj)) = true).
Proof.
  intros Ei Ej. split.
  - intro Hin. apply in_contribution in Hin.
    destruct Hin as (ci' & cj' & Ei' & Ej' & H).
    rewrite Ei in Ei'. rewrite Ej in Ej'.
    inversion Ei'; inversion Ej'; subst. exact H.
  - intros (-> & G & F).
    destruct (contribution_cases p i j ci cj Ei Ej)
      as [(_ & _ & E)|([Hd|Hf] & _)].
    + rewrite E. now left.
    + exfalso. revert G. now apply Qlt_not_le.
    + congruence.
Qed.

Lemma in_result_iff (p : LPProblem) (x1 x2 : Q) (i j : nat) :
  In (x1, x2, [i; j])
    (flat_map (contribution p) (index_pairs (List.length (constraints p))))
  <->
  (i < j < List.length (constraints p))%nat /\
  In (x1, x2, [i; j]) (contribution p (i, j)).
Proof.
  split.
  - intro H. apply in_result_contribution in H. tauto.
  - intros [Hij Hin]. apply in_flat_map. exists (i, j).
    split; [now apply in_index_pairs|exact Hin].
Qed.

(** X23.  After [add_constraint] the old constraints keep their
    indices, and the corner points between two old constraints are the
    old corner points that satisfy the new constraint: none is created
    there, and one disappears only by violating the new constraint. *)
Theorem add_constraint_filters_corner_points (p p1 p2 : LPProblem)
  (k1 k2 rhs : Q) (t : ConstraintType) (cps cps' : list CornerPoint)
  (x1 x2 : Q) (i j : nat) :
  find_corner_points p = Ok (cps, p1) ->
  find_corner_points (add_constraint p k1 k2 rhs t) = Ok (cps', p2) ->
  (j < List.length (constraints p))%nat ->
  (In (x1, x2, [i; j]) cps' <->
   In (x1, x2, [i; j]) cps /\
   is_satisfied (mkConstraint k1 k2 rhs t) x1 x2 = true).
Proof.
  intros H1 H2 Hj.
  rewrite find_corner_points_flat_map in H1, H2.
  inversion H1; subst cps. inversion H2; subst cps'. clear H1 H2.
  rewrite !in_result_iff.
  set (p' := add_constraint p k1 k2 rhs t).
  assert (Hlen : List.length (constraints p') =
                 S (List.length (constraints p))).
  { unfold p', add_constraint. cbn [constraints set_constraints].
    rewrite length_app. simpl. lia. }
  rewrite Hlen.
  destruct (Nat.lt_ge_cases i j) as [Hij|Hij]; [|split; intro; lia].
  destruct (nth_error (constraints p) i) as [ci|] eqn:Ei;
    [|apply nth_error_None in Ei; lia].
  destruct (nth_error (constraints p) j) as [cj|] eqn:Ej;
    [|apply nth_error_None in Ej; lia].
  assert (Ei' : nth_error (constraints p') i = Some ci).
  { unfold p', add_constraint. cbn [constraints set_constraints].
    rewrite nth_error_app1 by lia. exact Ei. }
  assert (Ej' : nth_error (constraints p') j = Some cj).
  { unfold p', add_constraint. cbn [constraints set_constraints].
    rewrite nth_error_app1 by lia. exact Ej. }
  rewrite (in_contribution_iff p' i j ci cj _ Ei' Ej').
  rewrite (in_contribution_iff p i j ci cj _ Ei Ej).
  assert (Hfeas : forall y1 y2,
            is_feasible p' y1 y2 =
            is_feasible p y1 y2 &&
            is_satisfied (mkConstraint k1 k2 rhs t) y1 y2).
  { intros y1 y2. unfold p', add_constraint, is_feasible.
    cbn [constraints set_constraints]. rewrite forallb_app. cbn [forallb].
    now rewrite andb_true_r. }
  rewrite Hfeas, andb_true_iff.
  split.
  - intros (_ & E & G & F & Sat). inversion E; subst x1 x2.
    repeat split; auto; lia.
  - intros ((_ & E & G & F) & Sat). inversion E; subst x1 x2.
    repeat split; auto; lia.
Qed.

(** [box_problem] with [x1 + x2 <= 6] added: the vertex [(4, 0)] stays. *)
Lemma add_constraint_filters_corner_points_witness :
  match find_corner_points (add_constraint box_problem 1 1 6 LESS_EQUAL) with
  | Ok (cps', _) => In (4, 0, [0%nat; 3%nat]) cps'
  | Err _ => False
  end.
Proof.
  destruct (find_corner_points (add_constraint box_problem 1 1 6 LESS_EQUAL))
    as [[cps' p2]|e] eqn:H2.
  - apply (add_constraint_filters_corner_points box_problem
             (set_corner_points box_problem box_corner_points) p2
             1 1 6 LESS_EQUAL box_corner_points cps' 4 0 0 3).
    + vm_compute. reflexivity.
    + exact H2.
    + simpl. lia.
    + split; [simpl; auto|reflexivity].
  - vm_compute in H2. discriminate.
Defined.

(** ** When the answer of is_bounded can be trusted *)

Lemma quotient_bounds (a r x : Q) :
  (0 < a -> a * x <= r -> x <= r / a) /\
  (a < 0 -> r <= a * x -> x <= r / a) /\
  (0 < a -> r <= a * x -> r / a <= x) /\
  (a < 0 -> a * x <= r -> r / a <= x).
Proof.
  assert (Hneg : a < 0 -> r / a == (- r) / (- a)).
  { intro Ha. field. intro E. rewrite E in Ha. discriminate. }
  repeat split; intros Ha H.
  - apply Qle_shift_div_l; [exact Ha|]. rewrite Qmult_comm. exact H.
  - rewrite (Hneg Ha). apply Qle_shift_div_l; [Lqa.lra|].
    setoid_replace (x * - a) with (- (a * x)) by ring. Lqa.lra.
  - apply Qle_shift_div_r; [exact Ha|]. rewrite Qmult_comm. exact H.
  - rewrite (Hneg Ha). apply Qle_shift_div_r; [Lqa.lra|].
    setoid_replace (x * - a) with (- (a * x)) by ring. Lqa.lra.
Qed.

(** A classified constraint with no cross term bounds its variable, on
    the side the table says. *)
Lemma classified_bound (a o r : Q) (t : ConstraintType) (bd : Bound) :
  classify a t = Some bd -> o == 0 ->
  exists m,
    forall x y,
      (is_satisfied (mkConstraint a o r t) x y = true \/
       is_satisfied (mkConstraint o a r t) y x = true) ->
      match bd with
      | Upper => x <= m
      | Lower => m <= x
      end.
Proof.
  intros Hc Ho. unfold classify in Hc.
  assert (Hsat : forall x y,
            is_satisfied (mkConstraint a o r t) x y = true \/
            is_satisfied (mkConstraint o a r t) y x = true ->
            match t with
            | LESS_EQUAL => a * x <= r + tol
            | GREATER_EQUAL => r - tol <= a * x
            | EQUAL => True
            end).
  { intros x y [H|H]; unfold is_satisfied, is_satisfied_eps in H;
      cbn [constraint_type a1 a2 b] in H; destruct t; try exact I;
      apply Qle_bool_iff in H; rewrite Ho in H;
      revert H; ring_simplify (0 * y); intro H; Lqa.lra. }
  destruct t; [| discriminate |].
  - destruct (Qlt_bool 0 a) eqn:Hp.
    + apply Qlt_bool_iff in Hp. inversion Hc; subst bd.
      exists ((r + tol) / a). intros x y H.
      destruct (quotient_bounds a (r + tol) x) as (Q1 & _).
      apply Q1; [exact Hp|]. apply (Hsat x y H).
    + destruct (Qlt_bool a 0) eqn:Hn; [|discriminate].
      apply Qlt_bool_iff in Hn. inversion Hc; subst bd.
      exists ((r + tol) / a). intros x y H.
      destruct (quotient_bounds a (r + tol) x) as (_ & _ & _ & Q4).
      apply Q4; [exact Hn|]. apply (Hsat x y H).
  - destruct (Qlt_bool 0 a) eqn:Hp.
    + apply Qlt_bool_iff in Hp. inversion Hc; subst bd.
      exists ((r - tol) / a). intros x y H.
      destruct (quotient_bounds a (r - tol) x) as (_ & _ & Q3 & _).
      apply Q3; [exact Hp|]. apply (Hsat x y H).
    + destruct (Qlt_bool a 0) eqn:Hn; [|discriminate].
      apply Qlt_bool_iff in Hn. inversion Hc; subst bd.
      exists ((r - tol) / a). intros x y H.
      destruct (quotient_bounds a (r - tol) x) as (_ & Q2 & _).
      apply Q2; [exact Hn|]. apply (Hsat x y H).
Qed.

Lemma feasible_satisfies (p : LPProblem) (c : Constraint) (x1 x2 : Q) :
  In c (constraints p) -> is_feasible p x1 x2 = true ->
  is_satisfied c x1 x2 = true.
Proof.
  intros Hin Hf. unfold is_feasible in Hf.
  rewrite forallb_forall in Hf. now apply Hf.
Qed.

(** X24.  When every constraint that [is_bounded] scans for an axis
    has its other coefficient exactly zero, a true answer is right: the
    feasible points all lie in one box. *)
Theorem is_bounded_true_gives_a_box (p : LPProblem) :
  Forall (fun c => (Qabs (a2 c) < tol -> a2 c == 0) /\
                   (Qabs (a1 c) < tol -> a1 c == 0)) (constraints p) ->
  is_bounded p = true ->
  exists lo1 hi1 lo2 hi2,
    forall x1 x2,
      is_feasible p x1 x2 = true ->
      lo1 <= x1 <= hi1 /\ lo2 <= x2 <= hi2.
Proof.
  intros Hax H. apply is_bounded_iff in H. rewrite Forall_forall in Hax.
  destruct H as ((cl1 & Il1 & [Gl1 Bl1]) & (cu1 & Iu1 & [Gu1 Bu1]) &
                 (cl2 & Il2 & [Gl2 Bl2]) & (cu2 & Iu2 & [Gu2 Bu2])).
  destruct (classified_bound (a1 cl1) (a2 cl1) (b cl1) _ _ Bl1) as [lo1 Hlo1];
    [now apply (Hax cl1 Il1)|].
  destruct (classified_bound (a1 cu1) (a2 cu1) (b cu1) _ _ Bu1) as [hi1 Hhi1];
    [now apply (Hax cu1 Iu1)|].
  destruct (classified_bound (a2 cl2) (a1 cl2) (b cl2) _ _ Bl2) as [lo2 Hlo2];
    [now apply (Hax cl2 Il2)|].
  destruct (classified_bound (a2 cu2) (a1 cu2) (b cu2) _ _ Bu2) as [hi2 Hhi2];
    [now apply (Hax cu2 Iu2)|].
  exists lo1, hi1, lo2, hi2. intros x1 x2 Hf.
  pose proof (feasible_satisfies p cl1 x1 x2 Il1 Hf) as S1.
  pose proof (feasible_satisfies p cu1 x1 x2 Iu1 Hf) as S2.
  pose proof (feasible_satisfies p cl2 x1 x2 Il2 Hf) as S3.
  pose proof (feasible_satisfies p cu2 x1 x2 Iu2 Hf) as S4.
  destruct cl1, cu1, cl2, cu2. cbn [a1 a2 b constraint_type] in *.
  repeat split.
  - apply (Hlo1 x1 x2). now left.
  - apply (Hhi1 x1 x2). now left.
  - apply (Hlo2 x2 x1). now right.
  - apply (Hhi2 x2 x1). now right.
Qed.

(** [box_problem]: its feasible points lie in one box. *)
Lemma is_bounded_true_gives_a_box_witness :
  exists lo1 hi1 lo2 hi2,
    forall x1 x2,
      is_feasible box_problem x1 x2 = true ->
      lo1 <= x1 <= hi1 /\ lo2 <= x2 <= hi2.
Proof.
  apply is_bounded_true_gives_a_box.
  - simpl.
    repeat (apply Forall_cons;
            [split; intro H; try reflexivity; vm_compute in H; discriminate|]).
    apply Forall_nil.
  - reflexivity.
Defined.

(** X25.  Without that, a true answer can be wrong: two constraints
    [e x1 + e x2 <= u] and [e x1 + e x2 >= l] with [0 < e < 1e-10] and
    [l <= u] are scanned for both axes and set all four flags, although
    the feasible strip contains points with [x1] as large as one
    likes. *)
Theorem is_bounded_true_on_a_strip (e l u k1 k2 : Q)
  (cache : list CornerPoint) :
  0 < e -> e < tol -> l <= u ->
  let p :=
    mkLPProblem k1 k2
      [mkConstraint e e u LESS_EQUAL; mkConstraint e e l GREATER_EQUAL]
      cache in
  is_bounded p = true /\
  forall m, exists x1 x2, m < x1 /\ is_feasible p x1 x2 = true.
Proof.
  intros He Htol Hlu p.
  assert (Hg : Qabs e < tol) by (rewrite Qabs_pos; Lqa.lra).
  assert (Hp : Qlt_bool 0 e = true) by now apply Qlt_bool_iff.
  split.
  - apply is_bounded_iff. unfold bounds_x1, bounds_x2, classify.
    repeat split.
    + exists (mkConstraint e e l GREATER_EQUAL).
      cbn. rewrite Hp. auto.
    + exists (mkConstraint e e u LESS_EQUAL).
      cbn. rewrite Hp. auto.
    + exists (mkConstraint e e l GREATER_EQUAL).
      cbn. rewrite Hp. auto.
    + exists (mkConstraint e e u LESS_EQUAL).
      cbn. rewrite Hp. auto.
  - intro m. exists (m + 1), (u / e - (m + 1)). split; [Lqa.lra|].
    assert (E : e * (m + 1) + e * (u / e - (m + 1)) == u)
      by (field; Lqa.lra).
    unfold is_feasible, is_satisfied, is_satisfied_eps.
    cbn [constraints forallb constraint_type a1 a2 b p].
    rewrite !andb_true_iff, !Qle_bool_iff, E.
    assert (0 < tol) by reflexivity.
    repeat split; Lqa.lra.
Qed.

(** [e = 1e-11], between [0] and [1]. *)
Lemma is_bounded_true_on_a_strip_witness :
  is_bounded
    (mkLPProblem 1 1
       [ mkConstraint (1 # 100000000000) (1 # 100000000000) 1 LESS_EQUAL;
         mkConstraint (1 # 100000000000) (1 # 100000000000) 0 GREATER_EQUAL ]
       []) = true.
Proof.
  apply (is_bounded_true_on_a_strip (1 # 100000000000) 0 1 1 1 []);
    reflexivity || discriminate.
Defined.

(** * Properties of the machine reading *)

Section MachineProperties.

Local Open Scope float_scope.

Variable det : float -> float -> float -> float -> float.
Variable solve :
  float -> float -> float -> float -> float -> float -> option (float * float).

Lemma machine_pair_body (p : Machine.LPProblem) (i j : nat)
  (acc : list Machine.CornerPoint) :
  (i < List.length (Machine.constraints p))%nat ->
  (j < List.length (Machine.constraints p))%nat ->
  Machine.pair_body det solve p i j acc
  = Ok (acc ++ Machine.contribution det solve p (i, j)).
Proof.
  intros Hi Hj. unfold Machine.pair_body, Machine.contribution, getitem.
  destruct (nth_error (Machine.constraints p) i) as [ci|] eqn:Ei;
    [|apply nth_error_None in Ei; lia].
  destruct (nth_error (Machine.constraints p) j) as [cj|] eqn:Ej;
    [|apply nth_error_None in Ej; lia].
  cbn [bind].
  destruct (abs (det _ _ _ _) <? Machine.tol); [now rewrite app_nil_r|].
  destruct (solve _ _ _ _ _ _) as [[x1 x2]|]; [|now rewrite app_nil_r].
  destruct (Machine.is_feasible p x1 x2); [reflexivity|now rewrite app_nil_r].
Qed.

Lemma machine_find_corner_points_flat_map (p : Machine.LPProblem) :
  let result :=
    flat_map (Machine.contribution det solve p)
      (index_pairs (List.length (Machine.constraints p))) in
  Machine.find_corner_points det solve p
  = Ok (result, Machine.set_corner_points p result).
Proof.
  intro result. unfold Machine.find_corner_points.
  rewrite (for_each_appends
             (fun i => flat_map (fun j => Machine.contribution det solve p (i, j))
                         (range (i + 1) (List.length (Machine.constraints p))))).
  - cbn [bind app]. subst result. unfold index_pairs.
    rewrite flat_map_flat_map.
    erewrite flat_map_ext; [reflexivity|].
    intro i. cbn beta. now rewrite flat_map_map.
  - intros i acc Hi. apply in_range in Hi.
    apply for_each_appends. intros j acc' Hj. apply in_range in Hj.
    apply machine_pair_body; lia.
Qed.

(** What a pair contributes is one point, exactly when it is [kept]. *)
Lemma machine_in_contribution (p : Machine.LPProblem) (i j : nat)
  (x1 x2 : float) (indices : list nat) :
  In (x1, x2, indices) (Machine.contribution det solve p (i, j)) <->
  indices = [i; j] /\ Machine.kept det solve p i j x1 x2.
Proof.
  unfold Machine.contribution, Machine.kept. split.
  - intro Hin.
    destruct (nth_error (Machine.constraints p) i) as [ci|]; [|contradiction].
    destruct (nth_error (Machine.constraints p) j) as [cj|]; [|contradiction].
    destruct (abs (det _ _ _ _) <? Machine.tol) eqn:G; [contradiction|].
    destruct (solve _ _ _ _ _ _) as [[y1 y2]|] eqn:S; [|contradiction].
    destruct (Machine.is_feasible p y1 y2) eqn:F; [|contradiction].
    destruct Hin as [E|[]]. inversion E; subst.
    split; [reflexivity|]. exists ci, cj. auto.
  - intros (-> & ci & cj & Ei & Ej & G & S & F).
    rewrite Ei, Ej, G, S, F. now left.
Qed.

Lemma machine_contribution_cases (p : Machine.LPProblem) (i j : nat) :
  Machine.contribution det solve p (i, j) = [] \/
  exists x1 x2, Machine.contribution det solve p (i, j) = [(x1, x2, [i; j])].
Proof.
  unfold Machine.contribution.
  destruct (nth_error (Machine.constraints p) i); [|now left].
  destruct (nth_error (Machine.constraints p) j); [|now left].
  destruct (abs (det _ _ _ _) <? Machine.tol); [now left|].
  destruct (solve _ _ _ _ _ _) as [[x1 x2]|]; [|now left].
  destruct (Machine.is_feasible p x1 x2); [right|now left].
  now exists x1, x2.
Qed.

(** C1, as amended.  [find_corner_points] visits the index pairs
    [(i, j)], [i < j], in increasing lexicographic order, each once, and
    hands the system of each pair to numpy.  A pair contributes the point
    [(x1, x2)] that [solve] returns for it, with the indices [[i; j]],
    exactly when the determinant numpy computes has a magnitude that is
    not below [1e-10], [solve] returns a point, and [is_feasible],
    evaluated in floating point, accepts the point for all the
    constraints; otherwise the pair contributes nothing.  The result is
    the concatenation of the contributions in the order of the
    enumeration, nothing being removed, and the returned problem is the
    given one with its cache replaced by the result. *)
Theorem find_corner_points_follows_computed_guard (p : Machine.LPProblem) :
  let n := List.length (Machine.constraints p) in
  let result := flat_map (Machine.contribution det solve p) (index_pairs n) in
  StronglySorted lex_lt (index_pairs n) /\
  (forall i j, In (i, j) (index_pairs n) <-> (i < j < n)%nat) /\
  Machine.find_corner_points det solve p
    = Ok (result, Machine.set_corner_points p result) /\
  Machine.corner_points (Machine.set_corner_points p result) = result /\
  (forall i j x1 x2,
     Machine.contribution det solve p (i, j) = [(x1, x2, [i; j])] <->
     Machine.kept det solve p i j x1 x2) /\
  (forall i j,
     Machine.contribution det solve p (i, j) = [] <->
     ~ exists x1 x2, Machine.kept det solve p i j x1 x2).
Proof.
  intros n result. split; [apply index_pairs_sorted|].
  split; [intros; apply in_index_pairs|].
  split; [apply machine_find_corner_points_flat_map|].
  split; [reflexivity|]. split.
  - intros i j x1 x2. split.
    + intro E.
      apply (machine_in_contribution p i j x1 x2 [i; j]).
      rewrite E. now left.
    + intro K.
      assert (Hin : In (x1, x2, [i; j])
                      (Machine.contribution det solve p (i, j)))
        by now apply machine_in_contribution.
      destruct (machine_contribution_cases p i j) as [E|(y1 & y2 & E)];
        rewrite E in Hin; [contradiction|].
      destruct Hin as [Hin|[]]. now rewrite E, Hin.
  - intros i j. split.
    + intros E (x1 & x2 & K).
      assert (Hin : In (x1, x2, [i; j])
                      (Machine.contribution det solve p (i, j)))
        by now apply machine_in_contribution.
      now rewrite E in Hin.
    + intro N.
      destruct (machine_contribution_cases p i j) as [E|(y1 & y2 & E)];
        [exact E|].
      exfalso. apply N. exists y1, y2.
      apply (machine_in_contribution p i j y1 y2 [i; j]).
      rewrite E. now left.
Qed.

(** X6.  Every point [find_corner_points] returns carries two indices
    [i < j] of constraints of the problem, is the point [solve] returned
    for that pair, whose computed determinant passed the guard, and was
    accepted by [is_feasible]. *)
Theorem returned_points_passed_the_checks (p p' : Machine.LPProblem)
  (cps : list Machine.CornerPoint) (x1 x2 : float) (indices : list nat) :
  Machine.find_corner_points det solve p = Ok (cps, p') ->
  In (x1, x2, indices) cps ->
  Machine.is_feasible p x1 x2 = true /\
  exists i j,
    indices = [i; j] /\
    (i < j < List.length (Machine.constraints p))%nat /\
    Machine.kept det solve p i j x1 x2.
Proof.
  intros Hf Hin. rewrite machine_find_corner_points_flat_map in Hf.
  inversion Hf; subst cps. clear Hf.
  apply in_flat_map in Hin. destruct Hin as ([i j] & Hp & Hin).
  apply in_index_pairs in Hp.
  apply machine_in_contribution in Hin. destruct Hin as [-> K].
  split.
  - destruct K as (ci & cj & _ & _ & _ & _ & F). exact F.
  - now exists i, j.
Qed.

End MachineProperties.

Section MachineCases.

Local Open Scope float_scope.

(** The vertex [(4, 0)] of the box, with the stand-ins for numpy. *)
Lemma returned_points_passed_the_checks_witness :
  Machine.is_feasible Machine.box_problem 4 0 = true /\
  exists i j,
    [0; 3]%nat = [i; j] /\
    (i < j < List.length (Machine.constraints Machine.box_problem))%nat /\
    Machine.kept Machine.product_det Machine.cramer_solve
      Machine.box_problem i j 4 0.
Proof.
  eapply (returned_points_passed_the_checks
            Machine.product_det Machine.cramer_solve Machine.box_problem).
  - reflexivity.
  - right. left. reflexivity.
Defined.

(** The pair [(0, 1)] of the box, with the stand-ins for numpy. *)
Lemma find_corner_points_follows_computed_guard_witness :
  Machine.kept Machine.product_det Machine.cramer_solve
    Machine.box_problem 0 1 4 4.
Proof.
  apply (find_corner_points_follows_computed_guard
           Machine.product_det Machine.cramer_solve Machine.box_problem).
  reflexivity.
Defined.

(** C4, at [coincident_problem].  The two rows are proportional, yet
    when the determinant numpy computes for them is not below [1e-10] in
    magnitude (it is about [-5.09e-10], from the rounding of its
    factorisation) and [solve] returns a point that [is_feasible]
    accepts, [find_corner_points] returns that point with the indices
    [[0; 1]]. *)
Theorem coincident_pair_is_returned
  (det : float -> float -> float -> float -> float)
  (solve : float -> float -> float -> float -> float -> float
           -> option (float * float))
  (x1 x2 : float) :
  PrimFloat.ltb (abs (det 7 100000 35 500000)) Machine.tol = false ->
  solve 7%float 100000%float 35%float 500000%float 0%float 0%float
    = Some (x1, x2) ->
  Machine.is_feasible Machine.coincident_problem x1 x2 = true ->
  Machine.find_corner_points det solve Machine.coincident_problem
  = Ok ([(x1, x2, [0; 1]%nat)],
        Machine.set_corner_points Machine.coincident_problem
          [(x1, x2, [0; 1]%nat)]).
Proof.
  intros G S F.
  rewrite machine_find_corner_points_flat_map.
  assert (E : Machine.contribution det solve Machine.coincident_problem
                (0, 1)%nat = [(x1, x2, [0; 1]%nat)]).
  { unfold Machine.contribution. cbn [nth_error Machine.coincident_problem
      Machine.constraints Machine.a1 Machine.a2 Machine.b].
    now rewrite G, S, F. }
  cbn [Machine.coincident_problem Machine.constraints List.length].
  change (index_pairs 2) with [(0, 1)%nat]. cbn [flat_map].
  change (Machine.mkLPProblem 1 1
            [Machine.mkConstraint 7 100000 0 LESS_EQUAL;
             Machine.mkConstraint 35 500000 0 LESS_EQUAL] [])
    with Machine.coincident_problem.
  rewrite E. reflexivity.
Qed.

(** With the determinant [-5.093170329928406e-10] and the solution
    [(0, 0)], the values numpy gives for these rows. *)
Lemma coincident_pair_is_returned_witness :
  Machine.find_corner_points
    (fun _ _ _ _ => (-5.093170329928406e-10)%float)
    (fun _ _ _ _ _ _ => Some (0%float, 0%float))
    Machine.coincident_problem
  = Ok ([(0%float, 0%float, [0; 1]%nat)],
        Machine.set_corner_points Machine.coincident_problem
          [(0%float, 0%float, [0; 1]%nat)]).
Proof.
  apply (coincident_pair_is_returned
           (fun _ _ _ _ => (-5.093170329928406e-10)%float)
           (fun _ _ _ _ _ _ => Some (0%float, 0%float)));
    reflexivity.
Defined.

(** ** Divisions in the machine reading *)

Lemma float_not_below_tol_nonzero (x : float) :
  PrimFloat.ltb x Machine.tol = false -> PrimFloat.eqb x 0%float = false.
Proof.
  intro H. destruct (PrimFloat.eqb x 0%float) eqn:E; [|reflexivity].
  rewrite FloatAxioms.ltb_spec in H. rewrite FloatAxioms.eqb_spec in E.
  destruct (FloatOps.Prim2SF x) as [s|s| |s m e].
  - destruct s; vm_compute in H; discriminate.
  - destruct s; vm_compute in E; discriminate.
  - vm_compute in E. discriminate.
  - exfalso. revert E. unfold SpecFloat.SFeqb, SpecFloat.SFcompare.
    replace (FloatOps.Prim2SF 0%float) with (SpecFloat.S754_zero false)
      by reflexivity.
    destruct s; discriminate.
Qed.

Lemma float_abs_not_below_tol_nonzero (x : float) :
  PrimFloat.ltb (abs x) Machine.tol = false -> PrimFloat.eqb x 0%float = false.
Proof.
  intro H. destruct (PrimFloat.eqb x 0%float) eqn:E; [|reflexivity].
  rewrite FloatAxioms.ltb_spec, FloatAxioms.abs_spec in H.
  rewrite FloatAxioms.eqb_spec in E.
  destruct (FloatOps.Prim2SF x) as [s|s| |s m e].
  - destruct s; vm_compute in H; discriminate.
  - destruct s; vm_compute in E; discriminate.
  - vm_compute in E. discriminate.
  - exfalso. revert E. unfold SpecFloat.SFeqb, SpecFloat.SFcompare.
    replace (FloatOps.Prim2SF 0%float) with (SpecFloat.S754_zero false)
      by reflexivity.
    destruct s; discriminate.
Qed.

Lemma machine_py_div_nonzero (x y : float) :
  PrimFloat.eqb y 0%float = false ->
  Machine.py_div x y = Ok (PrimFloat.div x y).
Proof. intro H. unfold Machine.py_div. now rewrite H. Qed.

(** X16.  [get_line_points] never raises: neither division can meet a
    zero divisor.  When the magnitude of [a2] is not below [1e-10] it
    returns the two ends of the [x1] range with the rounded quotients
    [(b - a1 x1) / a2]; when it is, it returns two empty lists or
    [b / a1] twice with the ends of the [x1] range as second
    coordinates. *)
Theorem machine_get_line_points_never_raises (c : Machine.Constraint)
  (x1_min x1_max : float) :
  exists xs ys,
    Machine.get_line_points c (x1_min, x1_max) = Ok (xs, ys) /\
    ((abs (Machine.a2 c) <? Machine.tol) = false ->
     xs = [x1_min; x1_max] /\
     ys = [(Machine.b c - Machine.a1 c * x1_min) / Machine.a2 c;
           (Machine.b c - Machine.a1 c * x1_max) / Machine.a2 c]) /\
    ((abs (Machine.a2 c) <? Machine.tol) = true ->
     (xs = [] /\ ys = []) \/
     (xs = [Machine.b c / Machine.a1 c; Machine.b c / Machine.a1 c] /\
      ys = [x1_min; x1_max] /\
      (abs (Machine.a1 c) <? Machine.tol) = false /\
      (x1_min <=? Machine.b c / Machine.a1 c) = true /\
      (Machine.b c / Machine.a1 c <=? x1_max) = true)).
Proof.
  unfold Machine.get_line_points.
  destruct (abs (Machine.a2 c) <? Machine.tol) eqn:G2.
  - destruct (abs (Machine.a1 c) <? Machine.tol) eqn:G1.
    + exists [], []. split; [reflexivity|]. split; [discriminate|]. auto.
    + rewrite machine_py_div_nonzero
        by now apply float_abs_not_below_tol_nonzero.
      cbn [bind].
      destruct (x1_min <=? Machine.b c / Machine.a1 c) eqn:L1;
        destruct (Machine.b c / Machine.a1 c <=? x1_max) eqn:L2; cbn [andb];
        eexists _, _; (split; [reflexivity|]); (split; [discriminate|]);
        intros _; [right|left|left|left]; auto.
  - cbn [comprehension].
    rewrite !machine_py_div_nonzero
      by now apply float_abs_not_below_tol_nonzero.
    cbn [bind]. eexists _, _. split; [reflexivity|].
    split; [auto|discriminate].
Qed.

(** The line [x1 + 2 x2 = 4] over the range [[0, 10]]. *)
Lemma machine_get_line_points_never_raises_witness :
  exists xs ys,
    Machine.get_line_points (Machine.mkConstraint 1 2 4 LESS_EQUAL) (0, 10)
      = Ok (xs, ys) /\
    xs = [0; 10] /\ ys = [(4 - 1 * 0) / 2; (4 - 1 * 10) / 2].
Proof.
  destruct (machine_get_line_points_never_raises
              (Machine.mkConstraint 1 2 4 LESS_EQUAL) 0 10)
    as (xs & ys & E & H & _).
  exists xs, ys. split; [exact E|]. apply H. reflexivity.
Defined.

Lemma float_compare_refl (s : bool) (m : positive) (e : Z) :
  SpecFloat.SFeqb (SpecFloat.S754_finite s m e) (SpecFloat.S754_finite s m e)
  = true.
Proof.
  unfold SpecFloat.SFeqb, SpecFloat.SFcompare.
  rewrite Z.compare_refl, Pos.compare_cont_refl. destruct s; reflexivity.
Qed.

Lemma float_not_nan (x : float) :
  is_nan x = false -> FloatOps.Prim2SF x <> SpecFloat.S754_nan.
Proof.
  unfold is_nan. rewrite negb_false_iff, FloatAxioms.eqb_spec.
  intros H E. rewrite E in H. discriminate.
Qed.

Lemma float_finite (u : float) :
  is_finite u = true ->
  exists s,
    FloatOps.Prim2SF u = SpecFloat.S754_zero s \/
    exists m e, FloatOps.Prim2SF u = SpecFloat.S754_finite s m e.
Proof.
  unfold is_finite, is_nan, is_infinity.
  rewrite negb_true_iff, orb_false_iff, negb_false_iff.
  rewrite !FloatAxioms.eqb_spec, FloatAxioms.abs_spec. intros [H1 H2].
  destruct (FloatOps.Prim2SF u) as [s|s| |s m e].
  - exists s. now left.
  - destruct s; vm_compute in H2; discriminate.
  - discriminate.
  - exists s. right. now exists m, e.
Qed.

(** Adding zero times a finite number to a number gives a float equal
    to that number. *)
Lemma float_zero_step (x u : float) :
  is_nan x = false -> is_finite u = true -> (x + 0 * u =? x) = true.
Proof.
  intros Hx Hu. apply float_not_nan in Hx. apply float_finite in Hu.
  rewrite FloatAxioms.eqb_spec, FloatAxioms.add_spec, FloatAxioms.mul_spec.
  replace (FloatOps.Prim2SF 0) with (SpecFloat.S754_zero false)
    by reflexivity.
  destruct Hu as (s & [E|(m & e & E)]); rewrite E;
    destruct (FloatOps.Prim2SF x) as [sx|sx| |sx mx ex]; try contradiction;
    try (destruct sx, s; reflexivity);
    apply float_compare_refl.
Qed.

Lemma float_eqb_refl (x : float) : is_nan x = false -> (x =? x) = true.
Proof. unfold is_nan. now rewrite negb_false_iff. Qed.

(** C6, as amended.  [move_in_gradient_direction] raises what the power
    operator raises on the square of either component of the direction
    or on the square root of their sum.  When the three return, with
    [norm] the computed root: below [1e-10] the point is returned
    unchanged; otherwise the result is
    [(x1 + step * (g1 / norm), x2 + step * (g2 / norm))] in rounded
    arithmetic, [(g1, g2)] being the gradient, or its opposite when
    [anti_gradient] is set, and neither division raises; and for a zero
    step the result equals the point given, when its coordinates are
    numbers and the two quotients are finite. *)
Theorem move_in_gradient_direction_computed_norm
  (pow : float -> float -> res float) (p : Machine.LPProblem)
  (x1 x2 step : float) (anti_gradient : bool) :
  let g1 := if anti_gradient then - Machine.c1 p else Machine.c1 p in
  let g2 := if anti_gradient then - Machine.c2 p else Machine.c2 p in
  let move := Machine.move_in_gradient_direction pow p x1 x2 in
  (forall e, pow g1 2 = Err e -> move step anti_gradient = Err e) /\
  (forall s1 e,
     pow g1 2 = Ok s1 -> pow g2 2 = Err e ->
     move step anti_gradient = Err e) /\
  (forall s1 s2 e,
     pow g1 2 = Ok s1 -> pow g2 2 = Ok s2 -> pow (s1 + s2) 0.5 = Err e ->
     move step anti_gradient = Err e) /\
  (forall s1 s2 norm,
     pow g1 2 = Ok s1 -> pow g2 2 = Ok s2 -> pow (s1 + s2) 0.5 = Ok norm ->
     ((norm <? Machine.tol) = true ->
      move step anti_gradient = Ok (x1, x2)) /\
     ((norm <? Machine.tol) = false ->
      move step anti_gradient
      = Ok (x1 + step * (g1 / norm), x2 + step * (g2 / norm))) /\
     (is_nan x1 = false -> is_nan x2 = false ->
      is_finite (g1 / norm) = true -> is_finite (g2 / norm) = true ->
      exists y1 y2,
        move 0 anti_gradient = Ok (y1, y2) /\
        (y1 =? x1) = true /\ (y2 =? x2) = true)).
Proof.
  intros g1 g2 move. subst move.
  unfold Machine.move_in_gradient_direction, Machine.gradient.
  fold g1 g2.
  split; [intros e H; now rewrite H|].
  split; [intros s1 e H1 H2; now rewrite H1, H2|].
  split; [intros s1 s2 e H1 H2 H3; rewrite H1, H2; cbn [bind]; now rewrite H3|].
  intros s1 s2 norm H1 H2 H3. rewrite H1, H2. cbn [bind]. rewrite H3.
  cbn [bind].
  destruct (norm <? Machine.tol) eqn:G.
  - split; [reflexivity|]. split; [discriminate|].
    intros N1 N2 _ _. exists x1, x2.
    split; [reflexivity|]. split; now apply float_eqb_refl.
  - rewrite !machine_py_div_nonzero by now apply float_not_below_tol_nonzero.
    cbn [bind]. split; [discriminate|]. split; [reflexivity|].
    intros N1 N2 F1 F2. eexists _, _. split; [reflexivity|].
    split; now apply float_zero_step.
Qed.

(** The gradient [(3, 4)], of norm [5]: five steps and no step from
    [(1, 2)]. *)
Lemma move_in_gradient_direction_computed_norm_witness :
  Machine.move_in_gradient_direction Machine.checked_pow
    (Machine.mkLPProblem 3 4 [] []) 1 2 5 false
  = Ok (1 + 5 * (3 / 5), 2 + 5 * (4 / 5)) /\
  exists y1 y2,
    Machine.move_in_gradient_direction Machine.checked_pow
      (Machine.mkLPProblem 3 4 [] []) 1 2 0 false = Ok (y1, y2) /\
    (y1 =? 1) = true /\ (y2 =? 2) = true.
Proof.
  destruct (move_in_gradient_direction_computed_norm Machine.checked_pow
              (Machine.mkLPProblem 3 4 [] []) 1 2 5 false)
    as (_ & _ & _ & H).
  destruct (H 9 16 5) as (_ & Hmove & Hzero); try reflexivity.
  split.
  - apply Hmove. reflexivity.
  - apply Hzero; reflexivity.
Defined.

(** C6, as stated, fails: with the objective [1e200 x1] the square of
    the first component is out of range, the power operator raises
    [OverflowError], and the call returns no point, not even for a zero
    step from the origin. *)
Lemma zero_step_raises_on_steep_gradient :
  Machine.move_in_gradient_direction Machine.checked_pow
    Machine.steep_problem 0 0 0 false = Err OverflowError /\
  ~ exists y1 y2,
      Machine.move_in_gradient_direction Machine.checked_pow
        Machine.steep_problem 0 0 0 false = Ok (y1, y2).
Proof.
  split; [reflexivity|]. intros (y1 & y2 & H). discriminate H.
Qed.

End MachineCases.

